(** * Cerelog ESP-EEG bridges: frame reassembly, sample decoding and sinks

    A shallow embedding of the three bridge scripts of the repository

      - [cerelog_lsl.py]                        (module [Lsl]),
      - [To fix/broken_cerelog_virtual_dongle.py] (module [Dongle]),
      - [To fix/broken_cerelog_wifi_bridge.py]    (module [Wifi]),

    followed by the properties of the specification they satisfy or break.

    Conventions.  A Python [bytes]/[bytearray] is a [list byte]; Python
    integers are [Z] (unbounded) or [nat] where they are indices and
    lengths; Python floats are binary64 primitive floats.  A [while True]
    loop is its body, returning [Break] or [Continue], iterated under a fuel
    bound; the loops are shown to stop before the fuel does. *)

From Stdlib Require Import Strings.String Strings.Ascii Strings.Byte.
From Stdlib Require Import List ZArith NArith Bool Lia PeanoNat.
From Stdlib Require Import QArith Qabs.
From Stdlib Require Import PrimFloat FloatOps SpecFloat Uint63.
Import ListNotations.

Local Open Scope nat_scope.

(** ** Bytes and the Python built-ins the scripts use *)

Definition bytes := list byte.

(** The integer a byte stands for, as Python gives it when a [bytes] value
    is indexed or iterated. *)
Definition byte_val (b : byte) : Z := Z.of_N (Byte.to_N b).

(** The byte of an integer in [range(256)].  The scripts only build bytes
    from integers already reduced modulo 256; the reduction here makes the
    function total. *)
Definition byte_of_Z (z : Z) : byte :=
  match Byte.of_N (Z.to_N (z mod 256)) with
  | Some b => b
  | None => x00
  end.

(** [sum(payload)] *)
Fixpoint sum (l : bytes) : Z :=
  match l with
  | [] => 0%Z
  | b :: t => (byte_val b + sum t)%Z
  end.

(** [v.to_bytes(length, 'big')], for [0 <= v < 256 ^ length] (the scripts
    call it on the two 16-bit marker constants only). *)
Fixpoint to_bytes (length : nat) (v : Z) : bytes :=
  match length with
  | 0 => []
  | S n => byte_of_Z (v / 256 ^ Z.of_nat n) :: to_bytes n v
  end.

(** [l[a:b]], [l[a:]] and [l[-1:]] for indices [0 <= a <= b]; like Python's
    slices they are clamped to the length of [l]. *)
Definition slice (l : bytes) (a b : nat) : bytes := firstn (b - a) (skipn a l).
Definition slice_from (l : bytes) (a : nat) : bytes := skipn a l.
Definition slice_last (l : bytes) : bytes := skipn (length l - 1) l.

(** [l.startswith(sub)] *)
Fixpoint startswith (l sub : bytes) {struct sub} : bool :=
  match sub, l with
  | [], _ => true
  | _ :: _, [] => false
  | s :: sub', x :: l' => Byte.eqb x s && startswith l' sub'
  end.

(** [l.endswith(sub)] *)
Definition endswith (l sub : bytes) : bool :=
  (length sub <=? length l) && startswith (skipn (length l - length sub) l) sub.

(** [buffer.find(sub)]: the lowest index at which [sub] occurs; [None]
    stands for Python's [-1]. *)
Fixpoint find (buffer sub : bytes) : option nat :=
  match buffer with
  | [] => if startswith [] sub then Some 0 else None
  | _ :: t => if startswith buffer sub then Some 0
              else option_map S (find t sub)
  end.

(** [sub in l] *)
Definition contains (l sub : bytes) : bool :=
  match find l sub with Some _ => true | None => false end.

(** [int.from_bytes(raw_bytes, byteorder='big', signed=False)] *)
Definition from_bytes_unsigned (raw_bytes : bytes) : Z :=
  fold_left (fun acc b => (acc * 256 + byte_val b)%Z) raw_bytes 0%Z.

(** [int.from_bytes(raw_bytes, byteorder='big', signed=True)]: the
    two's-complement reading of [8 * len(raw_bytes)] bits. *)
Definition from_bytes_signed (raw_bytes : bytes) : Z :=
  let u := from_bytes_unsigned raw_bytes in
  let bits := (8 * Z.of_nat (length raw_bytes))%Z in
  if (0 <? bits)%Z && (2 ^ (bits - 1) <=? u)%Z then (u - 2 ^ bits)%Z else u.

(** ** The inner [while True] loop

    One pass of the loop body either leaves the loop ([Break]) or goes
    round again ([Continue]); a pass that found a packet it forwards
    reports that packet.  What a script then does with the packet (decode
    and push, queue, re-frame) does not touch [buffer], so the packets are
    collected here and handed to the script's sink afterwards, in order. *)

Inductive loop_ctl : Type :=
| Break (buffer : bytes)
| Continue (buffer : bytes) (forwarded : option bytes).

Definition forwarded_list (o : option bytes) : list bytes :=
  match o with Some p => [p] | None => [] end.

Fixpoint run_loop (body : bytes -> loop_ctl) (fuel : nat) (buffer : bytes)
  : option (list bytes * bytes) :=
  match fuel with
  | 0 => None
  | S fuel' =>
      match body buffer with
      | Break buffer' => Some ([], buffer')
      | Continue buffer' o =>
          match run_loop body fuel' buffer' with
          | Some (ps, final) => Some (forwarded_list o ++ ps, final)
          | None => None
          end
      end
  end.

(** Every pass that continues drops at least one byte, so
    [length buffer + 1] passes are enough. *)
Definition parse_buffer (body : bytes -> loop_ctl) (buffer : bytes)
  : option (list bytes * bytes) :=
  run_loop body (S (length buffer)) buffer.

(** ** Sample decoding, shared by [cerelog_lsl.py] and the WiFi bridge *)

Definition ADS1299_NUM_CHANNELS : nat := 8.
Definition ADS1299_NUM_STATUS_BYTES : nat := 3.
Definition ADS1299_BYTES_PER_CHANNEL : nat := 3.

(** The body of [for ch in range(ADS1299_NUM_CHANNELS)], up to the integer
    [value]. *)
Definition channel_value (ads_data : bytes) (ch : nat) : Z :=
  let idx := ADS1299_NUM_STATUS_BYTES + ch * ADS1299_BYTES_PER_CHANNEL in
  let raw_bytes := slice ads_data idx (idx + ADS1299_BYTES_PER_CHANNEL) in
  from_bytes_signed raw_bytes.

(** The raw channel values of a packet: [ads_data = potential_packet[7:34]]
    and the loop over the channels. *)
Definition decode_channels (potential_packet : bytes) : list Z :=
  let ads_data := slice potential_packet 7 34 in
  map (channel_value ads_data) (seq 0 ADS1299_NUM_CHANNELS).

(** ** Binary64 arithmetic *)

(** A Python integer as a float; exact below [2 ^ 53]. *)
Definition float_of_Z (z : Z) : float :=
  match z with
  | Z0 => PrimFloat.zero
  | Zpos _ => PrimFloat.of_uint63 (Uint63.of_Z z)
  | Zneg p => PrimFloat.opp (PrimFloat.of_uint63 (Uint63.of_Z (Zpos p)))
  end.

(** The exact rational value of a finite float. *)
Definition Q_of_float (x : float) : option Q :=
  match Prim2SF x with
  | S754_zero _ => Some 0%Q
  | S754_finite s m e =>
      let mag := (if (0 <=? e)%Z then inject_Z (Zpos m * 2 ^ e)
                  else Qmake (Zpos m) (Z.to_pos (2 ^ (- e))))%Z in
      Some (if s then Qopp mag else mag)
  | _ => None
  end.

(** [abs(x - target) <= tol], on exact rationals. *)
Definition within (x target tol : Q) : bool :=
  Qle_bool (Qabs (x - target)) tol.

(** ** The candidate loop of [find_and_open_board]

    The serial transport is an external collaborator; a candidate port is
    described by what it does when the script drives it.  Port enumeration
    and the VID/PID and description filters come before the loop and are not
    modelled: the loop receives [candidate_ports]. *)

Inductive port_behaviour : Type :=
| OpenFails
    (* [serial.Serial(...)] raises: [ser] is still [None] *)
| FailsAfterOpen
    (* the port opens and a later call raises *)
| Answers (bytes_received : bytes).
    (* every call succeeds and the read after the baud switch returns
       [bytes_received] *)

Record port : Type := { device : string; behaviour : port_behaviour }.

(** The outcome: the device of the port returned, if any, and the devices
    closed on the way, in order. *)
Record search_result : Type :=
  { opened : option string; closed : list string }.

(** [for port_name in candidate_ports: ...; return None], with the test of
    step 4 ("Verify Data Stream") left to the script. *)
Fixpoint try_candidates (stream_detected : bytes -> bool)
  (candidate_ports : list port) : search_result :=
  match candidate_ports with
  | [] => {| opened := None; closed := [] |}
  | p :: rest =>
      match behaviour p with
      | OpenFails => try_candidates stream_detected rest
      | FailsAfterOpen =>
          let r := try_candidates stream_detected rest in
          {| opened := opened r; closed := device p :: closed r |}
      | Answers bytes_received =>
          if stream_detected bytes_received
          then {| opened := Some (device p); closed := [] |}
          else
            let r := try_candidates stream_detected rest in
            {| opened := opened r; closed := device p :: closed r |}
      end
  end.

(** Truth value of a [bytes] object. *)
Definition truthy (b : bytes) : bool :=
  match b with [] => false | _ :: _ => true end.

(** ** The handshake packet of [find_and_open_board]

    The three scripts build the same packet (the dongle writes the marker
    bytes as literals). *)

Definition FIRMWARE_BAUD_RATE_INDEX : Z := 0x04.
Definition HANDSHAKE_START_MARKER_1 : Z := 0xAA.
Definition HANDSHAKE_END_MARKER_1 : Z := 0xCC.

(** [struct.pack('>B', v)] and [struct.pack('>I', v)]: big-endian, no
    padding, [struct.error] ([None]) outside the range of the format. *)
Definition struct_pack_B (v : Z) : option bytes :=
  if (0 <=? v)%Z && (v <? 256)%Z then Some (to_bytes 1 v) else None.
Definition struct_pack_I (v : Z) : option bytes :=
  if (0 <=? v)%Z && (v <? 2 ^ 32)%Z then Some (to_bytes 4 v) else None.

(** Step 2 ("Construct and Send Handshake"), from [current_unix_time] to
    [handshake_packet]. *)
Definition handshake_packet (current_unix_time : Z) : option bytes :=
  match struct_pack_B 0x02, struct_pack_I current_unix_time with
  | Some msg_type, Some timestamp =>
      let checksum_payload :=
        (msg_type ++ timestamp)
        ++ [byte_of_Z 0x01; byte_of_Z FIRMWARE_BAUD_RATE_INDEX] in
      let checksum := Z.land (sum checksum_payload) 0xFF in
      match struct_pack_B checksum with
      | Some checksum_byte =>
          Some ([byte_of_Z HANDSHAKE_START_MARKER_1; byte_of_Z 0xBB]
                ++ checksum_payload
                ++ checksum_byte
                ++ [byte_of_Z HANDSHAKE_END_MARKER_1; byte_of_Z 0xDD])
      | None => None
      end
  | _, _ => None
  end.

(** ** Port enumeration

    What [serial.tools.list_ports.comports()] tells about a port.  The
    descriptions are taken to be ASCII text, on which [str.lower] changes
    the letters A-Z only. *)

Record port_info : Type :=
  { info_device : string;
    vid : option Z;
    pid : option Z;
    description : option string }.

Definition BOARD_USB_IDS : list (Z * Z) := [(0x1A86, 0x7523)%Z].
Definition BOARD_DESCRIPTIONS : list string := ["USB-SERIAL CH340"; "CH340"]%string.

(** Truth value of an attribute that is [None] or an integer. *)
Definition truthy_int (v : option Z) : bool :=
  match v with Some z => negb (z =? 0)%Z | None => false end.

(** [s.lower()] on ASCII text. *)
Definition lower_byte (b : byte) : byte :=
  if (0x41 <=? byte_val b)%Z && (byte_val b <=? 0x5A)%Z
  then byte_of_Z (byte_val b + 32) else b.
Definition lower (s : string) : bytes := map lower_byte (list_byte_of_string s).

(** [p.vid and p.pid and {'vid': p.vid, 'pid': p.pid} in BOARD_USB_IDS] *)
Definition usb_id_matches (p : port_info) : bool :=
  truthy_int (vid p) && truthy_int (pid p)
  && match vid p, pid p with
     | Some v, Some q =>
         existsb (fun id => (fst id =? v)%Z && (snd id =? q)%Z) BOARD_USB_IDS
     | _, _ => false
     end.

(** [p.description and any(desc.lower() in p.description.lower()
    for desc in BOARD_DESCRIPTIONS)] *)
Definition description_matches (p : port_info) : bool :=
  match description p with
  | None => false
  | Some d =>
      truthy (list_byte_of_string d)
      && existsb (fun desc => contains (lower d) (lower desc)) BOARD_DESCRIPTIONS
  end.

(** The list comprehension over [ports] and the fallback
    [if not candidate_ports: candidate_ports = [p.device for p in ports]]. *)
Definition select_candidates (is_candidate : port_info -> bool)
  (ports : list port_info) : list string :=
  match map info_device (filter is_candidate ports) with
  | [] => map info_device ports
  | c :: cs => c :: cs
  end.

(** ** [cerelog_lsl.py] *)

Module Lsl.

Definition DATA_PACKET_START_MARKER : Z := 0xABCD.
Definition DATA_PACKET_END_MARKER : Z := 0xDCBA.
Definition DATA_PACKET_TOTAL_SIZE : nat := 37.
Definition PACKET_IDX_LENGTH : nat := 2.
Definition PACKET_IDX_CHECKSUM : nat := 34.

Definition start_marker : bytes := to_bytes 2 DATA_PACKET_START_MARKER.
Definition end_marker : bytes := to_bytes 2 DATA_PACKET_END_MARKER.

(** [convert_to_microvolts(raw_val, vref=4.5, gain=24)] *)
Definition convert_to_microvolts_with (raw_val : Z) (vref gain : float) : float :=
  let scale_factor := ((2 * vref) / gain / float_of_Z (2 ^ 24))%float in
  (float_of_Z raw_val * scale_factor * float_of_Z 1000000)%float.

Definition convert_to_microvolts (raw_val : Z) : float :=
  convert_to_microvolts_with raw_val 4.5%float 24%float.

(** Step 4 of [find_and_open_board]:
    [bytes_received and start_marker in bytes_received]. *)
Definition stream_detected (bytes_received : bytes) : bool :=
  truthy bytes_received
  && contains bytes_received (to_bytes 2 DATA_PACKET_START_MARKER).

Definition find_and_open_board (candidate_ports : list port) : search_result :=
  try_candidates stream_detected candidate_ports.

(** The checksum test on [potential_packet]. *)
Definition checksum_ok (potential_packet : bytes) : bool :=
  let payload := slice potential_packet PACKET_IDX_LENGTH PACKET_IDX_CHECKSUM in
  let calculated_checksum := Z.land (sum payload) 0xFF in
  let packet_checksum := byte_val (nth PACKET_IDX_CHECKSUM potential_packet x00) in
  (calculated_checksum =? packet_checksum)%Z.

(** One pass of the "Parse Buffer" loop of [main]. *)
Definition parse_step (buffer : bytes) : loop_ctl :=
  match find buffer start_marker with
  | None =>
      if 0 <? length buffer then Break (slice_last buffer) else Break buffer
  | Some start_idx =>
      if length buffer <? start_idx + DATA_PACKET_TOTAL_SIZE then Break buffer
      else
        let potential_packet :=
          slice buffer start_idx (start_idx + DATA_PACKET_TOTAL_SIZE) in
        if endswith potential_packet end_marker then
          if checksum_ok potential_packet then
            Continue (slice_from buffer (start_idx + DATA_PACKET_TOTAL_SIZE))
                     (Some potential_packet)
          else
            Continue (slice_from buffer (start_idx + 1)) None
        else
          Continue (slice_from buffer (start_idx + 1)) None
  end.

(** The sample pushed to the outlet for a valid packet. *)
Definition lsl_sample (potential_packet : bytes) : list float :=
  map convert_to_microvolts (decode_channels potential_packet).

(** One round of the stream loop, as far as the buffer goes: the bytes read
    are appended to [buffer] and the buffer is parsed; the result is the
    valid packets found, in order, and the buffer left.  A round that read
    nothing sleeps and parses nothing ([continue]). *)
Definition feed (buffer read : bytes) : option (list bytes * bytes) :=
  match read with
  | [] => Some ([], buffer)
  | _ :: _ => parse_buffer parse_step (buffer ++ read)
  end.

(** Successive rounds, one per read. *)
Fixpoint feed_all (buffer : bytes) (reads : list bytes)
  : option (list bytes * bytes) :=
  match reads with
  | [] => Some ([], buffer)
  | read :: rest =>
      match feed buffer read with
      | None => None
      | Some (packets, buffer') =>
          match feed_all buffer' rest with
          | None => None
          | Some (packets', final) => Some (packets ++ packets', final)
          end
      end
  end.

(** The round with its sink: one sample is pushed per valid packet. *)
Definition stream_round (buffer : bytes) (outlet : list (list float))
  (read : bytes) : option (bytes * list (list float)) :=
  match feed buffer read with
  | Some (packets, buffer') => Some (buffer', outlet ++ map lsl_sample packets)
  | None => None
  end.

(** The candidates of [find_and_open_board]. *)
Definition candidate_ports (ports : list port_info) : list string :=
  select_candidates (fun p => usb_id_matches p || description_matches p) ports.

End Lsl.

(** ** [To fix/broken_cerelog_virtual_dongle.py] *)

Module Dongle.

Definition DOWNSAMPLE_RATIO : Z := 2.
Definition RAW_START : Z := 0xABCD.
Definition RAW_END : Z := 0xDCBA.
Definition RAW_SIZE : nat := 37.
Definition OBCI_START_BYTE : Z := 0xA0.
Definition OBCI_END_BYTE : Z := 0xC0.

Definition start_marker : bytes := to_bytes 2 RAW_START.
Definition end_marker : bytes := to_bytes 2 RAW_END.

(** Step 4 of [find_and_open_board]: [if ser.read(RAW_SIZE * 5):]. *)
Definition stream_detected (bytes_received : bytes) : bool :=
  truthy bytes_received.

Definition find_and_open_board (candidate_ports : list port) : search_result :=
  try_candidates stream_detected candidate_ports.

(** *** [gui_command_listener] *)

Definition ID_STRING : bytes :=
  list_byte_of_string "OpenBCI V3 8-16 channel" ++ [x0d; x0a]
  ++ list_byte_of_string "On Board ADS1299 Device ID: 0x3E" ++ [x0d; x0a]
  ++ list_byte_of_string "$$$".

Definition ACK_CHARS : string := "xX12345678!@#$%^&*()qwertyuiop".

(** What happens to [master_fd]. *)
Inductive fd_event : Type :=
| Wrote (data : bytes)
| Closed.

(** [char in s] for a one-character [char]. *)
Definition char_in (char : ascii) (s : string) : bool :=
  existsb (Ascii.eqb char) (list_ascii_of_string s).

(** The body of [for byte in cmd_bytes]: the new value of the global
    [streaming_enabled] and what is done to [master_fd]. *)
Definition handle_command (streaming_enabled : bool) (byte : byte)
  : bool * list fd_event :=
  let char := ascii_of_byte byte in
  if Ascii.eqb char "v" then (false, [Wrote ID_STRING])
  else if Ascii.eqb char "b" then (true, [])
  else if Ascii.eqb char "s" then (false, [])
  else if char_in char ACK_CHARS then
    (streaming_enabled, [Wrote (list_byte_of_string ",")])
  else (streaming_enabled, []).

(** One [os.read] worth of commands. *)
Fixpoint handle_commands (streaming_enabled : bool) (cmd_bytes : bytes)
  : bool * list fd_event :=
  match cmd_bytes with
  | [] => (streaming_enabled, [])
  | byte :: rest =>
      let '(s1, ev1) := handle_command streaming_enabled byte in
      let '(s2, ev2) := handle_commands s1 rest in
      (s2, ev1 ++ ev2)
  end.

(** [main]'s [finally] is the only place that closes [master_fd]. *)
Definition main_finally : list fd_event := [Closed].

(** *** The stream loop of [main] *)

(** One pass of the inner loop: the end marker is the only test. *)
Definition parse_step (buffer : bytes) : loop_ctl :=
  match find buffer start_marker with
  | None =>
      if 0 <? length buffer then Break (slice_last buffer) else Break buffer
  | Some start_idx =>
      if length buffer <? start_idx + RAW_SIZE then Break buffer
      else
        let potential_packet := slice buffer start_idx (start_idx + RAW_SIZE) in
        if endswith potential_packet end_marker then
          Continue (slice_from buffer (start_idx + RAW_SIZE))
                   (Some potential_packet)
        else
          Continue (slice_from buffer (start_idx + 1)) None
  end.

(** [out.append(v)]: a [ValueError] outside [range(256)]. *)
Definition bytearray_append (out : bytes) (v : Z) : option bytes :=
  if (0 <=? v)%Z && (v <? 256)%Z then Some (out ++ [byte_of_Z v]) else None.

(** The 33-byte frame built for a packet. *)
Definition out_pkt (sample_index : Z) (potential_packet : bytes) : option bytes :=
  let eeg_data := slice potential_packet 10 34 in
  match bytearray_append [byte_of_Z OBCI_START_BYTE] sample_index with
  | None => None
  | Some out1 =>
      let out2 := out1 ++ eeg_data in
      let out3 := out2 ++ repeat x00 6 in
      bytearray_append out3 OBCI_END_BYTE
  end.

Record sink : Type :=
  { packet_counter : Z;
    sample_index : Z;
    written : list bytes (* the frames written to [master_fd], in order *) }.

Definition sink_init : sink :=
  {| packet_counter := 0; sample_index := 0; written := [] |}.

(** What [main] does with a packet whose end marker matched; [None] is an
    exception ([ZeroDivisionError] for a zero ratio, [ValueError] from
    [append]).  [streaming_enabled] is the value of the global when the
    packet is handled. *)
Definition on_packet (ratio : Z) (streaming_enabled : bool) (s : sink)
  (potential_packet : bytes) : option sink :=
  let packet_counter := (packet_counter s + 1)%Z in
  if streaming_enabled then
    if (ratio =? 0)%Z then None
    else if (packet_counter mod ratio =? 0)%Z then
      match out_pkt (sample_index s) potential_packet with
      | None => None
      | Some out =>
          Some {| packet_counter := packet_counter;
                  sample_index := (sample_index s + 1) mod 256;
                  written := written s ++ [out] |}
      end
    else Some {| packet_counter := packet_counter;
                 sample_index := sample_index s;
                 written := written s |}
  else Some {| packet_counter := packet_counter;
               sample_index := sample_index s;
               written := written s |}.

(** A run of packets, with the value of [streaming_enabled] at each. *)
Fixpoint on_packets (ratio : Z) (s : sink) (packets : list (bool * bytes))
  : option sink :=
  match packets with
  | [] => Some s
  | (streaming_enabled, p) :: rest =>
      match on_packet ratio streaming_enabled s p with
      | None => None
      | Some s' => on_packets ratio s' rest
      end
  end.

(** One round of the stream loop; the buffer is parsed whether or not bytes
    were read.  [streaming_enabled] is taken constant over the round. *)
Definition stream_round (streaming_enabled : bool) (buffer : bytes) (s : sink)
  (read : bytes) : option (bytes * sink) :=
  match parse_buffer parse_step (buffer ++ read) with
  | None => None
  | Some (packets, buffer') =>
      match on_packets DOWNSAMPLE_RATIO s
              (map (fun p => (streaming_enabled, p)) packets) with
      | None => None
      | Some s' => Some (buffer', s')
      end
  end.

(** The candidates of [find_and_open_board]: by USB identifiers only. *)
Definition candidate_ports (ports : list port_info) : list string :=
  select_candidates usb_id_matches ports.

(** Successive rounds of the stream loop, each with the value of
    [streaming_enabled] during it and the bytes it read. *)
Fixpoint stream_rounds (buffer : bytes) (s : sink) (rounds : list (bool * bytes))
  : option (bytes * sink) :=
  match rounds with
  | [] => Some (buffer, s)
  | (streaming_enabled, read) :: rest =>
      match stream_round streaming_enabled buffer s read with
      | None => None
      | Some (buffer', s') => stream_rounds buffer' s' rest
      end
  end.

End Dongle.

(** ** [To fix/broken_cerelog_wifi_bridge.py] *)

Module Wifi.

Definition DATA_PACKET_START_MARKER : Z := 0xABCD.
Definition DATA_PACKET_END_MARKER : Z := 0xDCBA.
Definition DATA_PACKET_TOTAL_SIZE : nat := 37.
Definition PACKET_IDX_LENGTH : nat := 2.
Definition PACKET_IDX_CHECKSUM : nat := 34.

Definition start_marker : bytes := to_bytes 2 DATA_PACKET_START_MARKER.
Definition end_marker : bytes := to_bytes 2 DATA_PACKET_END_MARKER.

(** Step 4 of [find_and_open_board]. *)
Definition stream_detected (bytes_received : bytes) : bool :=
  truthy bytes_received
  && contains bytes_received (to_bytes 2 DATA_PACKET_START_MARKER).

Definition find_and_open_board (candidate_ports : list port) : search_result :=
  try_candidates stream_detected candidate_ports.

(** One pass of the inner loop of [serial_worker]. *)
Definition parse_step (buffer : bytes) : loop_ctl :=
  match find buffer start_marker with
  | None =>
      if 0 <? length buffer then Break (slice_last buffer) else Break buffer
  | Some start_idx =>
      if length buffer <? start_idx + DATA_PACKET_TOTAL_SIZE then Break buffer
      else
        let potential_packet :=
          slice buffer start_idx (start_idx + DATA_PACKET_TOTAL_SIZE) in
        if endswith potential_packet end_marker then
          let payload :=
            slice potential_packet PACKET_IDX_LENGTH PACKET_IDX_CHECKSUM in
          if (Z.land (sum payload) 0xFF
              =? byte_val (nth PACKET_IDX_CHECKSUM potential_packet x00))%Z
          then
            Continue (slice_from buffer (start_idx + DATA_PACKET_TOTAL_SIZE))
                     (Some potential_packet)
          else
            Continue (slice_from buffer (start_idx + 1)) None
        else
          Continue (slice_from buffer (start_idx + 1)) None
  end.

(** A row holds integers and, last, a float. *)
Inductive number : Type :=
| Int (z : Z)
| Float (f : float).

(** [row_data] for a valid packet; [now_ms] is [time.time() * 1000]. *)
Definition row_data (potential_packet : bytes) (now_ms : float) : list number :=
  map Int (decode_channels potential_packet)
  ++ [Int 0; Int 0; Int 0]
  ++ [Float now_ms].

(** *** The shared queue *)

Section Queue.
Context {A : Type}.

(** [data_queue.append(row_data)] followed by
    [if len(data_queue) > 500: data_queue.pop(0)]. *)
Definition queue_push (data_queue : list A) (row : A) : list A :=
  let data_queue := data_queue ++ [row] in
  if 500 <? length data_queue then tl data_queue else data_queue.

(** Pushes with nothing taken out in between. *)
Definition queue_push_all (data_queue : list A) (rows : list A) : list A :=
  fold_left queue_push rows data_queue.

(** [chunk_buffer.extend(data_queue); data_queue.clear()] in [tcp_worker]:
    the new [chunk_buffer] and the new [data_queue]. *)
Definition queue_drain (chunk_buffer data_queue : list A) : list A * list A :=
  match data_queue with
  | [] => (chunk_buffer, data_queue)
  | _ :: _ => (chunk_buffer ++ data_queue, [])
  end.

End Queue.

(** The candidates of [find_and_open_board]. *)
Definition candidate_ports (ports : list port_info) : list string :=
  select_candidates (fun p => usb_id_matches p || description_matches p) ports.

(** *** [tcp_worker], while the connection is up

    A message is what is handed to [json.dumps]. *)

Section Streamer.
Context {A : Type}.

Record message : Type := { chunk : list A; count : Z }.

Record streamer : Type :=
  { data_queue : list A;     (* the global queue *)
    chunk_buffer : list A;   (* local to [tcp_worker] *)
    packet_count : Z;        (* local to [tcp_worker] *)
    sent : list message      (* the messages sent on the socket, in order *) }.

(** One pass of [while streaming_active] in which [sendall] succeeds. *)
Definition tcp_pass (w : streamer) : streamer :=
  let '(chunk_buffer, data_queue) :=
    queue_drain (chunk_buffer w) (data_queue w) in
  if 10 <=? length chunk_buffer then
    let send_chunk := firstn 10 chunk_buffer in
    let chunk_buffer := skipn 10 chunk_buffer in
    let packet_count := (packet_count w + 1)%Z in
    {| data_queue := data_queue;
       chunk_buffer := chunk_buffer;
       packet_count := packet_count;
       sent := sent w ++ [{| chunk := send_chunk; count := packet_count |}] |}
  else
    {| data_queue := data_queue;
       chunk_buffer := chunk_buffer;
       packet_count := packet_count w;
       sent := sent w |}.

(** The serial worker queues a row. *)
Definition tcp_push (w : streamer) (row : A) : streamer :=
  {| data_queue := queue_push (data_queue w) row;
     chunk_buffer := chunk_buffer w;
     packet_count := packet_count w;
     sent := sent w |}.

(** The two threads take turns under [queue_lock]: a row is queued, or the
    streamer makes a pass. *)
Inductive turn : Type :=
| Queued (row : A)
| Pass.

Definition take_turn (w : streamer) (t : turn) : streamer :=
  match t with
  | Queued row => tcp_push w row
  | Pass => tcp_pass w
  end.

Definition take_turns (w : streamer) (ts : list turn) : streamer :=
  fold_left take_turn ts w.

(** The state in which [tcp_worker] starts a connection; the queue holds
    what the serial worker has left there. *)
Definition connected (data_queue : list A) : streamer :=
  {| data_queue := data_queue; chunk_buffer := []; packet_count := 0;
     sent := [] |}.

End Streamer.

(** *** [ShieldEmulatorHandler.do_GET] *)

Inductive body : Type :=
| NoBody
| BoardDescriptor (board_type : string) (num_channels : Z) (connected : bool)
    (gains : list Z).

Record response : Type :=
  { status : Z; content_type : option string; payload : body }.

(** The new value of the global [streaming_active] and the response. *)
Definition do_GET (streaming_active : bool) (path : string) : bool * response :=
  if String.eqb path "/board" then
    (streaming_active,
     {| status := 200; content_type := Some "application/json"%string;
        payload := BoardDescriptor "cyton" 8 true (repeat 24%Z 8) |})
  else if String.eqb path "/stream/start" then
    (true, {| status := 200; content_type := None; payload := NoBody |})
  else if String.eqb path "/stream/stop" then
    (false, {| status := 200; content_type := None; payload := NoBody |})
  else
    (streaming_active,
     {| status := 404; content_type := None; payload := NoBody |}).

(** A run of GET requests: the flag at the end and the responses. *)
Fixpoint do_GETs (streaming_active : bool) (paths : list string)
  : bool * list response :=
  match paths with
  | [] => (streaming_active, [])
  | path :: rest =>
      let '(a1, r) := do_GET streaming_active path in
      let '(a2, rs) := do_GETs a1 rest in
      (a2, r :: rs)
  end.

(** *** [serial_worker], from the packets to the queue

    [clock k] is the value of [time.time() * 1000] at the [k]-th reading of
    the clock since the worker started; [readings] counts the readings
    made so far. *)

(** The valid packets of one parse, in order: each becomes a row stamped
    with the clock and is queued. *)
Fixpoint queue_packets (clock : nat -> float) (readings : nat)
  (data_queue : list (list number)) (packets : list bytes)
  : nat * list (list number) :=
  match packets with
  | [] => (readings, data_queue)
  | p :: rest =>
      queue_packets clock (S readings)
        (queue_push data_queue (row_data p (clock readings))) rest
  end.

(** One turn of the outer loop of [serial_worker]; the buffer is parsed
    whether or not bytes were read. *)
Definition serial_round (clock : nat -> float) (readings : nat)
  (buffer : bytes) (data_queue : list (list number)) (read : bytes)
  : option (bytes * nat * list (list number)) :=
  match parse_buffer parse_step (buffer ++ read) with
  | None => None
  | Some (packets, buffer') =>
      let '(readings', data_queue') :=
        queue_packets clock readings data_queue packets in
      Some (buffer', readings', data_queue')
  end.

Fixpoint serial_rounds (clock : nat -> float) (readings : nat)
  (buffer : bytes) (data_queue : list (list number)) (reads : list bytes)
  : option (bytes * nat * list (list number)) :=
  match reads with
  | [] => Some (buffer, readings, data_queue)
  | read :: rest =>
      match serial_round clock readings buffer data_queue read with
      | None => None
      | Some (buffer', readings', data_queue') =>
          serial_rounds clock readings' buffer' data_queue' rest
      end
  end.

End Wifi.

(** ** Frames as the device sends them *)

(** The 37 bytes of a device frame with payload [P]: start marker, payload,
    checksum, end marker. *)
Definition raw_frame (P : bytes) : bytes :=
  to_bytes 2 0xABCD ++ P ++ [byte_of_Z (sum P mod 256)] ++ to_bytes 2 0xDCBA.

(** The payload field of a 37-byte packet. *)
Definition payload_of (packet : bytes) : bytes := slice packet 2 34.

(** The two tests [cerelog_lsl.py] makes before it forwards a window. *)
Definition window_valid (w : bytes) : bool :=
  endswith w Lsl.end_marker && Lsl.checksum_ok w.

(** [sub] occurs in [l] at index [i]. *)
Definition occurs_at (l sub : bytes) (i : nat) : bool :=
  startswith (skipn i l) sub.

(** A 24-bit big-endian two's-complement integer, written out. *)
Definition be24_signed (b0 b1 b2 : byte) : Z :=
  let u := (65536 * byte_val b0 + 256 * byte_val b1 + byte_val b2)%Z in
  if (u <? 2 ^ 23)%Z then u else (u - 2 ^ 24)%Z.

(** The 33-byte frame of the third-party protocol. *)
Definition cyton_frame (index : Z) (channel_data : bytes) : bytes :=
  [xa0; byte_of_Z index] ++ channel_data ++ repeat x00 6 ++ [xc0].

(** The frame written for the [k]-th multiple of the ratio. *)
Definition kth_frame (N : nat) (packets : list bytes) (k : nat) : bytes :=
  cyton_frame (Z.of_nat k mod 256)
              (slice (nth ((k + 1) * N - 1) packets []) 10 34).

(** ** Notions used to state the properties *)

(** The frames of the third-party protocol that a run of packets gives rise
    to when every [N]-th packet is written, see [kth_frame]. *)
Definition frames_of (N : nat) (packets : list bytes) : list bytes :=
  map (kth_frame N packets) (seq 0 (length packets / N)).

(** The three bytes that set or clear [streaming_enabled]. *)
Definition is_control (b : byte) : bool :=
  Byte.eqb b "v" || Byte.eqb b "b" || Byte.eqb b "s".

(** The bytes the command listener answers. *)
Definition is_answered (b : byte) : bool :=
  Byte.eqb b "v"
  || existsb (Byte.eqb b) (list_byte_of_string "xX12345678!@#$%^&*()qwertyuiop").

(** The last element of a list that satisfies [f]. *)
Definition last_such {A : Type} (f : A -> bool) (l : list A) : option A :=
  List.find f (rev l).

(** The packets of a run that the dongle turns into a frame: packet [i]
    (from 0) when [streaming_enabled] is set and the counter, which was
    [c0] before the run, reaches a multiple of [N]. *)
Fixpoint emitting (N c0 : Z) (packets : list (bool * bytes)) : list bytes :=
  match packets with
  | [] => []
  | (e, p) :: rest =>
      (if e && ((c0 + 1) mod N =? 0)%Z then [p] else [])
      ++ emitting N (c0 + 1) rest
  end.



(** A buffer the parse loop leaves alone: it holds no start marker and at
    most one byte, or fewer than 37 bytes from its first start marker on. *)
Definition at_rest (buffer : bytes) : bool :=
  match find buffer Lsl.start_marker with
  | None => length buffer <=? 1
  | Some i => length buffer <? i + 37
  end.

(** A window as [cerelog_lsl.py] and the WiFi bridge forward it. *)
Definition well_framed (w : bytes) : Prop :=
  length w = 37
  /\ startswith w Lsl.start_marker = true
  /\ endswith w Lsl.end_marker = true
  /\ Lsl.checksum_ok w = true.

(** The rows queued in a run of turns, in order. *)
Definition queued_rows {A : Type} (ts : list (@Wifi.turn A)) : list A :=
  flat_map (fun t => match t with Wifi.Queued row => [row] | Wifi.Pass => [] end)
           ts.

(** The number of passes of the streamer in a run of turns. *)
Definition passes {A : Type} (ts : list (@Wifi.turn A)) : nat :=
  length (filter (fun t => match t with Wifi.Pass => true | _ => false end) ts).

(** The two paths that set or clear [streaming_active], and the paths that
    are answered with 200. *)
Definition is_toggle (path : string) : bool :=
  String.eqb path "/stream/start" || String.eqb path "/stream/stop".
Definition is_known (path : string) : bool :=
  String.eqb path "/board" || is_toggle path.

(** The rows of a run of packets, the first stamped with reading [r] of the
    clock, the next with reading [r + 1], and so on. *)
Fixpoint rows_from (clock : nat -> float) (r : nat) (packets : list bytes)
  : list (list Wifi.number) :=
  match packets with
  | [] => []
  | p :: rest => Wifi.row_data p (clock r) :: rows_from clock (S r) rest
  end.

(** The part of a buffer that later passes of the parse loop can still use:
    the buffer from its first start marker on, or its last byte when it
    holds no start marker. *)
Definition pending (buffer : bytes) : bytes :=
  match find buffer Lsl.start_marker with
  | Some i => skipn i buffer
  | None => slice_last buffer
  end.

(** ** Test vectors *)

(** Five bytes that are no frame and hold the start-marker value. *)
Definition stray_marker_bytes : bytes := [x11; xab; xcd; x22; x33].

(** A payload whose last bytes make the 37 bytes that start at the stray
    marker above look like a frame. *)
Definition unlucky_payload : bytes := repeat x00 28 ++ [xcd; xdc; xba; x00].

(** A payload made of start markers only. *)
Definition marker_payload : bytes := concat (repeat [xab; xcd] 16).

(** A window with both markers whose checksum byte is wrong. *)
Definition bad_checksum_window : bytes :=
  [xab; xcd] ++ repeat x00 32 ++ [x01] ++ [xdc; xba].

(** Two candidate ports: the first answers one byte that is no marker, the
    second answers the start of a frame. *)
Definition silent_port : port :=
  {| device := "/dev/ttyUSB0"; behaviour := Answers [x00] |}.
Definition board_port : port :=
  {| device := "/dev/ttyUSB1"; behaviour := Answers [x00; xab; xcd; x01] |}.

(** * Properties *)

(** ** Bytes *)

Lemma byte_val_range (b : byte) : (0 <= byte_val b < 256)%Z.
Proof.
  unfold byte_val. pose proof (Byte.to_N_bounded b) as H. lia.
Qed.

Lemma byte_val_of_Z (z : Z) : byte_val (byte_of_Z z) = (z mod 256)%Z.
Proof.
  unfold byte_of_Z, byte_val.
  assert (Hb : (0 <= z mod 256 < 256)%Z) by (apply Z.mod_pos_bound; lia).
  destruct (Byte.of_N (Z.to_N (z mod 256))) as [b|] eqn:E.
  - apply Byte.to_of_N in E. rewrite E. lia.
  - apply Byte.of_N_None_iff in E. lia.
Qed.

Lemma byte_eqb_refl (b : byte) : Byte.eqb b b = true.
Proof. now apply Byte.byte_dec_lb. Qed.

(** ** [startswith], [endswith] and [find] *)

Lemma startswith_app (sub r : bytes) : startswith (sub ++ r) sub = true.
Proof.
  induction sub as [|s sub IH]; simpl; [reflexivity|].
  now rewrite byte_eqb_refl, IH.
Qed.

Lemma startswith_inv (sub l : bytes) :
  startswith l sub = true -> exists r, l = sub ++ r.
Proof.
  revert l. induction sub as [|s sub IH]; intros l H.
  - now exists l.
  - destruct l as [|x l]; simpl in H; [discriminate|].
    apply andb_true_iff in H as [Hx Hl].
    apply Byte.byte_dec_bl in Hx. subst x.
    destruct (IH _ Hl) as [r ->]. now exists r.
Qed.

Lemma startswith_length (sub l : bytes) :
  startswith l sub = true -> length sub <= length l.
Proof.
  intros H. destruct (startswith_inv _ _ H) as [r ->].
  rewrite length_app. lia.
Qed.

Lemma endswith_app (a sub : bytes) : endswith (a ++ sub) sub = true.
Proof.
  unfold endswith. rewrite length_app.
  replace (length a + length sub - length sub) with (length a) by lia.
  rewrite skipn_app, skipn_all, Nat.sub_diag. simpl.
  pose proof (startswith_app sub []) as H. rewrite app_nil_r in H.
  rewrite H, andb_true_r. apply Nat.leb_le. lia.
Qed.

(** [find] returns the first index at which [sub] occurs. *)
Lemma find_Some (sub l : bytes) (i : nat) :
  find l sub = Some i ->
  occurs_at l sub i = true /\ forall j, j < i -> occurs_at l sub j = false.
Proof.
  unfold occurs_at. revert i. induction l as [|x l IH]; intros i H; simpl in H.
  - destruct (startswith [] sub) eqn:E; [|discriminate].
    injection H as <-. split; [exact E | intros j Hj; lia].
  - destruct (startswith (x :: l) sub) eqn:E.
    + injection H as <-. split; [exact E | intros j Hj; lia].
    + destruct (find l sub) as [k|] eqn:Ek; [|discriminate].
      injection H as <-. destruct (IH k eq_refl) as [H1 H2].
      split; [exact H1|].
      intros [|j] Hj; [exact E | apply H2; lia].
Qed.

Lemma find_None (sub l : bytes) :
  find l sub = None -> forall j, occurs_at l sub j = false.
Proof.
  unfold occurs_at. induction l as [|x l IH]; intros H j; simpl in H.
  - destruct (startswith [] sub) eqn:E; [discriminate|].
    now rewrite skipn_nil.
  - destruct (startswith (x :: l) sub) eqn:E; [discriminate|].
    destruct (find l sub) eqn:Ek; [discriminate|].
    destruct j as [|j]; [exact E | now apply IH].
Qed.

Lemma occurs_at_app_shift (g l sub : bytes) :
  occurs_at (g ++ l) sub (length g) = startswith l sub.
Proof.
  unfold occurs_at. now rewrite skipn_app, skipn_all, Nat.sub_diag.
Qed.

(** ** Slices *)

Lemma slice_length (l : bytes) (a b : nat) :
  b <= length l -> length (slice l a b) = b - a.
Proof.
  intros H. unfold slice. rewrite length_firstn, length_skipn. lia.
Qed.

Lemma slice_app_mid (g f r : bytes) :
  slice (g ++ f ++ r) (length g) (length g + length f) = f.
Proof.
  unfold slice. rewrite skipn_app, skipn_all, Nat.sub_diag. simpl.
  replace (length g + length f - length g) with (length f) by lia.
  rewrite firstn_app, firstn_all, Nat.sub_diag. simpl. apply app_nil_r.
Qed.

Lemma slice_skipn (l : bytes) (d a b : nat) :
  slice (skipn d l) a b = slice l (d + a) (d + b).
Proof.
  unfold slice. rewrite skipn_skipn.
  replace (d + b - (d + a)) with (b - a) by lia.
  now rewrite (Nat.add_comm a d).
Qed.

Lemma occurs_at_skipn (l sub : bytes) (d i : nat) :
  occurs_at (skipn d l) sub i = occurs_at l sub (d + i).
Proof.
  unfold occurs_at. now rewrite skipn_skipn, (Nat.add_comm i d).
Qed.

(** ** Device frames *)

Lemma start_marker_bytes : Lsl.start_marker = [xab; xcd].
Proof. reflexivity. Qed.

Lemma end_marker_bytes : Lsl.end_marker = [xdc; xba].
Proof. reflexivity. Qed.

Lemma raw_frame_bytes (P : bytes) :
  raw_frame P = [xab; xcd] ++ P ++ [byte_of_Z (sum P mod 256)] ++ [xdc; xba].
Proof. reflexivity. Qed.

Lemma raw_frame_length (P : bytes) :
  length P = 32 -> length (raw_frame P) = 37.
Proof.
  intros H. rewrite raw_frame_bytes. rewrite !length_app, H. reflexivity.
Qed.

Lemma raw_frame_startswith (P : bytes) :
  startswith (raw_frame P) Lsl.start_marker = true.
Proof. rewrite raw_frame_bytes, start_marker_bytes. apply startswith_app. Qed.

Lemma raw_frame_endswith (P : bytes) :
  endswith (raw_frame P) Lsl.end_marker = true.
Proof.
  rewrite raw_frame_bytes, end_marker_bytes.
  rewrite !app_assoc. apply endswith_app.
Qed.

Lemma raw_frame_payload (P : bytes) :
  length P = 32 -> payload_of (raw_frame P) = P.
Proof.
  intros H. unfold payload_of. rewrite raw_frame_bytes.
  pose proof (slice_app_mid [xab; xcd] P
                ([byte_of_Z (sum P mod 256)] ++ [xdc; xba])) as E.
  rewrite H in E. exact E.
Qed.

Lemma raw_frame_checksum_byte (P : bytes) :
  length P = 32 -> nth 34 (raw_frame P) x00 = byte_of_Z (sum P mod 256).
Proof.
  intros H. rewrite raw_frame_bytes.
  change ([xab; xcd] ++ P ++ [byte_of_Z (sum P mod 256)] ++ [xdc; xba])
    with (xab :: xcd :: P ++ byte_of_Z (sum P mod 256) :: [xdc; xba]).
  change 34 with (S (S 32)). cbn [nth].
  rewrite app_nth2 by lia. now rewrite H.
Qed.

Lemma land_255 (z : Z) : Z.land z 255 = (z mod 256)%Z.
Proof. change 255%Z with (Z.ones 8). now rewrite Z.land_ones by lia. Qed.

Lemma raw_frame_checksum_ok (P : bytes) :
  length P = 32 -> Lsl.checksum_ok (raw_frame P) = true.
Proof.
  intros H. unfold Lsl.checksum_ok.
  change (slice (raw_frame P) Lsl.PACKET_IDX_LENGTH Lsl.PACKET_IDX_CHECKSUM)
    with (payload_of (raw_frame P)).
  rewrite (raw_frame_payload P H).
  change Lsl.PACKET_IDX_CHECKSUM with 34.
  rewrite (raw_frame_checksum_byte P H), byte_val_of_Z, land_255.
  rewrite Z.mod_mod by lia. apply Z.eqb_refl.
Qed.

Lemma raw_frame_valid (P : bytes) :
  length P = 32 -> window_valid (raw_frame P) = true.
Proof.
  intros H. unfold window_valid.
  now rewrite raw_frame_endswith, raw_frame_checksum_ok.
Qed.

(** ** One pass of the parse loop of [cerelog_lsl.py] *)

Lemma lsl_step_found (buffer : bytes) (i : nat) :
  find buffer Lsl.start_marker = Some i ->
  i + 37 <= length buffer ->
  Lsl.parse_step buffer =
    if window_valid (slice buffer i (i + 37))
    then Continue (skipn (i + 37) buffer) (Some (slice buffer i (i + 37)))
    else Continue (skipn (i + 1) buffer) None.
Proof.
  intros Hf Hlen. unfold Lsl.parse_step. rewrite Hf.
  change Lsl.DATA_PACKET_TOTAL_SIZE with 37.
  destruct (Nat.ltb_spec (length buffer) (i + 37)) as [Hlt|_]; [lia|].
  unfold window_valid, slice_from.
  destruct (endswith (slice buffer i (i + 37)) Lsl.end_marker);
    destruct (Lsl.checksum_ok (slice buffer i (i + 37))); reflexivity.
Qed.

Lemma lsl_step_short (buffer : bytes) (i : nat) :
  find buffer Lsl.start_marker = Some i ->
  length buffer < i + 37 ->
  Lsl.parse_step buffer = Break buffer.
Proof.
  intros Hf Hlen. unfold Lsl.parse_step. rewrite Hf.
  change Lsl.DATA_PACKET_TOTAL_SIZE with 37.
  destruct (Nat.ltb_spec (length buffer) (i + 37)) as [_|Hge]; [reflexivity|lia].
Qed.

Lemma lsl_step_no_marker (buffer : bytes) :
  find buffer Lsl.start_marker = None ->
  Lsl.parse_step buffer = Break (slice_last buffer).
Proof.
  intros Hf. unfold Lsl.parse_step. rewrite Hf.
  destruct buffer; reflexivity.
Qed.

(** The loop never runs out of its fuel: a pass that continues has dropped
    at least one byte. *)
Lemma lsl_step_shrinks (buffer buffer' : bytes) (o : option bytes) :
  Lsl.parse_step buffer = Continue buffer' o -> length buffer' < length buffer.
Proof.
  unfold Lsl.parse_step.
  destruct (find buffer Lsl.start_marker) as [i|] eqn:Hf.
  - change Lsl.DATA_PACKET_TOTAL_SIZE with 37.
    destruct (Nat.ltb_spec (length buffer) (i + 37)) as [Hlt|Hge];
      [discriminate|].
    unfold slice_from.
    destruct (endswith _ _); [destruct (Lsl.checksum_ok _)|];
      intros H; injection H as <- _; rewrite length_skipn; lia.
  - destruct (0 <? length buffer); discriminate.
Qed.

Lemma run_loop_total (body : bytes -> loop_ctl) :
  (forall b b' o, body b = Continue b' o -> length b' < length b) ->
  forall fuel buffer, length buffer < fuel ->
  exists r, run_loop body fuel buffer = Some r.
Proof.
  intros Hshrink. induction fuel as [|fuel IH]; intros buffer Hlt; [lia|].
  simpl. destruct (body buffer) as [b'|b' o] eqn:E.
  - now eexists.
  - apply Hshrink in E. destruct (IH b') as [[ps final] Hr]; [lia|].
    rewrite Hr. now eexists.
Qed.

Lemma run_loop_more_fuel (body : bytes -> loop_ctl) (fuel fuel' : nat)
  (buffer : bytes) (r : list bytes * bytes) :
  run_loop body fuel buffer = Some r -> fuel <= fuel' ->
  run_loop body fuel' buffer = Some r.
Proof.
  revert fuel' buffer r. induction fuel as [|fuel IH]; intros fuel' buffer r H Hle;
    [discriminate|].
  destruct fuel' as [|fuel']; [lia|]. simpl in *.
  destruct (body buffer) as [b'|b' o]; [exact H|].
  destruct (run_loop body fuel b') as [[ps final]|] eqn:E; [|discriminate].
  rewrite (IH fuel' b' _ E) by lia. exact H.
Qed.

(** ** Garbage, then a frame *)

(** The engine of [cerelog_lsl.py] on a buffer [G ++ F], where [F] is a
    window that passes both tests and no window that starts at a marker
    inside [G] does: every such marker costs one pass and one byte, then [F]
    is forwarded and the buffer is empty. *)
Lemma lsl_garbage_then_window (fuel : nat) :
  forall G F : bytes,
    length G + 2 <= fuel ->
    length F = 37 ->
    startswith F Lsl.start_marker = true ->
    window_valid F = true ->
    (forall i, i < length G ->
               occurs_at (G ++ F) Lsl.start_marker i = true ->
               window_valid (slice (G ++ F) i (i + 37)) = false) ->
    run_loop Lsl.parse_step fuel (G ++ F) = Some ([F], []).
Proof.
  induction fuel as [|fuel IH]; intros G F Hfuel HF Hs Hv Hbad; [lia|].
  assert (Hocc : occurs_at (G ++ F) Lsl.start_marker (length G) = true)
    by (now rewrite occurs_at_app_shift).
  destruct (find (G ++ F) Lsl.start_marker) as [i|] eqn:Hf;
    [|rewrite (find_None _ _ Hf) in Hocc; discriminate].
  destruct (find_Some _ _ _ Hf) as [Hi Hmin].
  assert (Hle : i <= length G).
  { destruct (Nat.le_gt_cases i (length G)) as [H|H]; [exact H|].
    rewrite (Hmin _ H) in Hocc. discriminate. }
  cbn [run_loop].
  rewrite (lsl_step_found _ i Hf) by (rewrite length_app; lia).
  destruct (Nat.eq_dec i (length G)) as [->|Hne].
  - pose proof (slice_app_mid G F []) as E. rewrite app_nil_r, HF in E.
    rewrite E, Hv.
    assert (Hnil : skipn (length G + 37) (G ++ F) = []).
    { apply skipn_all2. rewrite length_app. lia. }
    rewrite Hnil. destruct fuel as [|fuel]; [lia|]. reflexivity.
  - rewrite (Hbad i) by (lia || assumption).
    assert (Hsk : skipn (i + 1) (G ++ F) = skipn (i + 1) G ++ F).
    { rewrite skipn_app. replace (i + 1 - length G) with 0 by lia.
      reflexivity. }
    rewrite Hsk.
    rewrite (IH (skipn (i + 1) G) F); [reflexivity| |exact HF|exact Hs|exact Hv|].
    + rewrite length_skipn. lia.
    + intros j Hj. rewrite <- Hsk, occurs_at_skipn, slice_skipn.
      rewrite length_skipn in Hj.
      replace (i + 1 + (j + 37)) with (i + 1 + j + 37) by lia.
      apply Hbad. lia.
Qed.

(** A prefix without the start marker has no marker at any of its
    positions once a frame follows it: the marker cannot straddle the
    border, because the frame starts with 0xAB, not 0xCD. *)
Lemma no_marker_before_frame (G F : bytes) (i : nat) :
  contains G Lsl.start_marker = false ->
  startswith F Lsl.start_marker = true ->
  i < length G ->
  occurs_at (G ++ F) Lsl.start_marker i = false.
Proof.
  intros Hc Hs Hi. unfold contains in Hc.
  destruct (find G Lsl.start_marker) eqn:Hf; [discriminate|].
  pose proof (find_None _ _ Hf i) as Hno. unfold occurs_at in *.
  rewrite skipn_app. replace (i - length G) with 0 by lia. simpl skipn.
  assert (Hlen : length (skipn i G) = length G - i) by apply length_skipn.
  rewrite start_marker_bytes in *.
  destruct (startswith_inv _ _ Hs) as [r ->].
  destruct (skipn i G) as [|g [|g2 G2]]; simpl in Hlen; [lia| |].
  - simpl. destruct (Byte.eqb g xab); reflexivity.
  - exact Hno.
Qed.

(** ** The frame reassembly engine of [cerelog_lsl.py] *)

(** The parse loop stops within its fuel on every buffer. *)
Lemma lsl_parse_total (buffer : bytes) :
  exists r, parse_buffer Lsl.parse_step buffer = Some r.
Proof.
  apply run_loop_total; [exact lsl_step_shrinks | lia].
Qed.

(** C2.  For every 32-byte payload [P], the 37 bytes (start marker, [P],
    [sum(P) mod 256], end marker) read in one go into an empty buffer make
    the engine forward exactly one packet, whose payload is [P], and leave
    the buffer empty: all 37 bytes are consumed.  Nothing is assumed of
    [P], which may hold the start marker. *)
Theorem lsl_frame_roundtrip (P : bytes) :
  length P = 32 ->
  exists packet,
    Lsl.feed [] (raw_frame P) = Some ([packet], [])
    /\ payload_of packet = P
    /\ length (raw_frame P) = 37.
Proof.
  intros HP. exists (raw_frame P).
  split; [|split; [now apply raw_frame_payload | now apply raw_frame_length]].
  pose proof (raw_frame_length P HP) as HL.
  assert (Hfeed : Lsl.feed [] (raw_frame P)
                  = parse_buffer Lsl.parse_step (raw_frame P))
    by (rewrite raw_frame_bytes; reflexivity).
  rewrite Hfeed. unfold parse_buffer.
  apply (lsl_garbage_then_window _ [] (raw_frame P)); cbn [length app].
  - lia.
  - exact HL.
  - apply raw_frame_startswith.
  - now apply raw_frame_valid.
  - intros i Hi. lia.
Qed.

Lemma lsl_frame_roundtrip_witness :
  length marker_payload = 32
  /\ contains marker_payload Lsl.start_marker = true
  /\ exists packet,
       Lsl.feed [] (raw_frame marker_payload) = Some ([packet], [])
       /\ payload_of packet = marker_payload
       /\ length (raw_frame marker_payload) = 37.
Proof.
  split; [reflexivity|]. split; [reflexivity|].
  apply (lsl_frame_roundtrip marker_payload). reflexivity.
Defined.

(** ** The sample decoder *)

Lemma from_bytes_signed_3 (b0 b1 b2 : byte) :
  from_bytes_signed [b0; b1; b2] = be24_signed b0 b1 b2.
Proof.
  unfold from_bytes_signed, be24_signed, from_bytes_unsigned.
  cbn [fold_left length].
  pose proof (byte_val_range b0). pose proof (byte_val_range b1).
  pose proof (byte_val_range b2).
  change (8 * Z.of_nat 3)%Z with 24%Z.
  change (0 <? 24)%Z with true. change (24 - 1)%Z with 23%Z. cbn [andb].
  replace ((0 * 256 + byte_val b0) * 256 + byte_val b1)%Z
    with (256 * byte_val b0 + byte_val b1)%Z by lia.
  replace ((256 * byte_val b0 + byte_val b1) * 256 + byte_val b2)%Z
    with (65536 * byte_val b0 + 256 * byte_val b1 + byte_val b2)%Z by lia.
  destruct (Z.leb_spec (2 ^ 23)
              (65536 * byte_val b0 + 256 * byte_val b1 + byte_val b2));
    destruct (Z.ltb_spec
                (65536 * byte_val b0 + 256 * byte_val b1 + byte_val b2)
                (2 ^ 23)); lia.
Qed.

Lemma be24_signed_range (b0 b1 b2 : byte) :
  (- 8388608 <= be24_signed b0 b1 b2 <= 8388607)%Z.
Proof.
  unfold be24_signed.
  pose proof (byte_val_range b0). pose proof (byte_val_range b1).
  pose proof (byte_val_range b2).
  change (2 ^ 23)%Z with 8388608%Z. change (2 ^ 24)%Z with 16777216%Z.
  destruct (Z.ltb_spec
              (65536 * byte_val b0 + 256 * byte_val b1 + byte_val b2)
              8388608); lia.
Qed.

(** A packet of 37 bytes, spelled out. *)
Ltac explode_packet packet H :=
  do 37 (destruct packet as [|? packet]; [discriminate H|]);
  destruct packet; [|discriminate H].

(** C10.  On every 37-byte packet the decoder returns exactly 8 values;
    value [ch] is the big-endian two's-complement reading of the three
    bytes at offsets [10 + 3 ch .. 12 + 3 ch] of the packet, and so lies
    between -8388608 and 8388607. *)
Theorem decode_channels_spec (packet : bytes) :
  length packet = 37 ->
  length (decode_channels packet) = 8
  /\ (forall ch, ch < 8 ->
        nth ch (decode_channels packet) 0%Z
        = be24_signed (nth (10 + 3 * ch) packet x00)
                      (nth (11 + 3 * ch) packet x00)
                      (nth (12 + 3 * ch) packet x00))
  /\ Forall (fun v => (- 8388608 <= v <= 8388607)%Z) (decode_channels packet).
Proof.
  intros H. explode_packet packet H.
  unfold decode_channels, channel_value, slice, ADS1299_NUM_CHANNELS,
    ADS1299_NUM_STATUS_BYTES, ADS1299_BYTES_PER_CHANNEL.
  cbn [seq map firstn skipn Nat.sub Nat.add Nat.mul].
  rewrite !from_bytes_signed_3.
  split; [reflexivity|]. split.
  - intros ch Hch.
    do 8 (destruct ch as [|ch]; [reflexivity|]). lia.
  - repeat constructor; apply be24_signed_range.
Qed.

Lemma decode_channels_spec_witness :
  length (raw_frame unlucky_payload) = 37
  /\ length (decode_channels (raw_frame unlucky_payload)) = 8
  /\ (forall ch, ch < 8 ->
        nth ch (decode_channels (raw_frame unlucky_payload)) 0%Z
        = be24_signed (nth (10 + 3 * ch) (raw_frame unlucky_payload) x00)
                      (nth (11 + 3 * ch) (raw_frame unlucky_payload) x00)
                      (nth (12 + 3 * ch) (raw_frame unlucky_payload) x00))
  /\ Forall (fun v => (- 8388608 <= v <= 8388607)%Z)
            (decode_channels (raw_frame unlucky_payload)).
Proof.
  split; [reflexivity|].
  apply (decode_channels_spec (raw_frame unlucky_payload)). reflexivity.
Defined.

(** ** Conversion to microvolts *)

(** C5, as the code computes it.  A channel whose three bytes are
    0x7F 0xFF 0xFF decodes to 8388607, and [convert_to_microvolts], that is
    [raw * ((2 * 4.5 / 24) / 2 ** 24) * 1000000] in binary64, turns it into
    a finite float within 0.01 of 187499.98. *)
Theorem full_scale_channel (ads_data : bytes) (ch : nat) :
  slice ads_data (3 + ch * 3) (3 + ch * 3 + 3) = [x7f; xff; xff] ->
  channel_value ads_data ch = 8388607%Z
  /\ exists q,
       Q_of_float (Lsl.convert_to_microvolts (channel_value ads_data ch)) = Some q
       /\ within q (18749998 # 100) (1 # 100) = true.
Proof.
  intros H.
  assert (E : channel_value ads_data ch = 8388607%Z).
  { unfold channel_value, ADS1299_NUM_STATUS_BYTES, ADS1299_BYTES_PER_CHANNEL.
    cbv zeta. rewrite H. reflexivity. }
  split; [exact E|]. rewrite E.
  exists (6442450176000000 # 34359738368). split; vm_compute; reflexivity.
Qed.

Lemma full_scale_channel_witness :
  channel_value ([x00; x00; x00; x7f; xff; xff] ++ repeat x00 21) 0 = 8388607%Z
  /\ exists q,
       Q_of_float (Lsl.convert_to_microvolts
                     (channel_value ([x00; x00; x00; x7f; xff; xff]
                                     ++ repeat x00 21) 0)) = Some q
       /\ within q (18749998 # 100) (1 # 100) = true.
Proof.
  apply (full_scale_channel ([x00; x00; x00; x7f; xff; xff] ++ repeat x00 21) 0).
  reflexivity.
Defined.

(** C5 as it is written fails: the microvolt value of 8388607 is
    6442450176000000 / 34359738368 = 187499.977..., which is not within 0.01
    of 3145.73. *)
Lemma full_scale_channel_counterexample :
  from_bytes_signed [x7f; xff; xff] = 8388607%Z
  /\ Q_of_float (Lsl.convert_to_microvolts 8388607)
     = Some (6442450176000000 # 34359738368)
  /\ within (6442450176000000 # 34359738368) (314573 # 100) (1 # 100) = false.
Proof.
  repeat split; vm_compute; reflexivity.
Qed.

(** ** The shared queue of the WiFi bridge *)

Section QueueFacts.
Context {A : Type}.

Lemma queue_push_all_snoc (q rows : list A) (x : A) :
  Wifi.queue_push_all q (rows ++ [x])
  = Wifi.queue_push (Wifi.queue_push_all q rows) x.
Proof. unfold Wifi.queue_push_all. now rewrite fold_left_app. Qed.

Lemma tl_skipn (n : nat) (l : list A) : tl (skipn n l) = skipn (S n) l.
Proof.
  revert l. induction n as [|n IH]; intros [|x l]; try reflexivity.
  simpl. rewrite IH. destruct l; reflexivity.
Qed.

(** Pushing keeps the last 500 of everything that is or was in the queue. *)
Lemma queue_push_all_last (q rows : list A) :
  length q <= 500 ->
  Wifi.queue_push_all q rows = skipn (length (q ++ rows) - 500) (q ++ rows).
Proof.
  intros Hq. induction rows as [|x rows IH] using rev_ind.
  - rewrite app_nil_r. replace (length q - 500) with 0 by lia. reflexivity.
  - rewrite queue_push_all_snoc, IH. unfold Wifi.queue_push.
    set (L := q ++ rows). rewrite app_assoc. fold L.
    set (d := length L - 500).
    assert (Hd : d <= length L) by (unfold d; lia).
    assert (E : skipn d L ++ [x] = skipn d (L ++ [x])).
    { rewrite skipn_app. replace (d - length L) with 0 by lia. reflexivity. }
    rewrite E, length_skipn, !length_app. cbn [length].
    destruct (Nat.ltb_spec 500 (length L + 1 - d)) as [Hlt|Hge].
    + rewrite tl_skipn. f_equal. unfold d in *. lia.
    + f_equal. unfold d in *. lia.
Qed.

End QueueFacts.

(** C7.  [queue_push] is a total function, so a push always returns.  A
    queue of at most 500 rows has at most 500 rows after any pushes, and
    500 + 5 pushes into the empty queue leave exactly 500 rows: the last 500
    pushed, in the order pushed. *)
Theorem queue_drop_oldest (A : Type) (data_queue rows pushed : list A) :
  length data_queue <= 500 ->
  length pushed = 500 + 5 ->
  length (Wifi.queue_push_all data_queue rows) <= 500
  /\ length (Wifi.queue_push_all [] pushed) = 500
  /\ Wifi.queue_push_all [] pushed = skipn 5 pushed.
Proof.
  intros Hq Hp. split; [|split].
  - rewrite (queue_push_all_last _ _ Hq), length_skipn. lia.
  - rewrite queue_push_all_last by (cbn; lia).
    cbn [app]. rewrite length_skipn. lia.
  - rewrite queue_push_all_last by (cbn; lia).
    cbn [app]. f_equal. lia.
Qed.

Lemma queue_drop_oldest_witness :
  length (Wifi.queue_push_all (seq 0 500) [500; 501]) <= 500
  /\ length (Wifi.queue_push_all [] (seq 0 505)) = 500
  /\ Wifi.queue_push_all [] (seq 0 505) = skipn 5 (seq 0 505).
Proof.
  apply (queue_drop_oldest nat (seq 0 500) [500; 501] (seq 0 505));
    vm_compute; [lia | reflexivity].
Defined.

(** ** The command listener of the virtual dongle *)

Lemma handle_command_cases (streaming_enabled : bool) (b : byte) :
  Dongle.handle_command streaming_enabled b =
    if Byte.eqb b "v" then (false, [Dongle.Wrote Dongle.ID_STRING])
    else if Byte.eqb b "b" then (true, [])
    else if Byte.eqb b "s" then (false, [])
    else if existsb (Byte.eqb b) (list_byte_of_string Dongle.ACK_CHARS)
         then (streaming_enabled, [Dongle.Wrote [","%byte]])
    else (streaming_enabled, []).
Proof. destruct b; reflexivity. Qed.

Lemma handle_command_no_close (streaming_enabled : bool) (b : byte) :
  ~ In Dongle.Closed (snd (Dongle.handle_command streaming_enabled b)).
Proof.
  rewrite handle_command_cases.
  destruct (Byte.eqb b "v"); [|destruct (Byte.eqb b "b");
    [|destruct (Byte.eqb b "s"); [|destruct (existsb _ _)]]];
    cbn [snd In]; intuition discriminate.
Qed.

(** C9.  The listener handles one byte at a time: ['v'] clears
    [streaming_enabled] and writes the identity string; ['b'] sets it and
    writes nothing; ['s'] clears it and writes nothing, and does not close
    the descriptor; a byte of the acknowledgment set leaves the flag alone
    and is answered by one comma; any other byte changes nothing and is not
    answered. *)
Theorem command_state_machine (streaming_enabled : bool) :
  Dongle.handle_command streaming_enabled "v"
  = (false, [Dongle.Wrote Dongle.ID_STRING])
  /\ Dongle.handle_command streaming_enabled "b" = (true, [])
  /\ Dongle.handle_command streaming_enabled "s" = (false, [])
  /\ (forall b : byte,
        In b (list_byte_of_string "xX12345678!@#$%^&*()qwertyuiop") ->
        Dongle.handle_command streaming_enabled b
        = (streaming_enabled, [Dongle.Wrote [","%byte]]))
  /\ (forall b : byte,
        b <> "v"%byte -> b <> "b"%byte -> b <> "s"%byte ->
        ~ In b (list_byte_of_string "xX12345678!@#$%^&*()qwertyuiop") ->
        Dongle.handle_command streaming_enabled b = (streaming_enabled, []))
  /\ (forall b : byte,
        ~ In Dongle.Closed (snd (Dongle.handle_command streaming_enabled b))).
Proof.
  split; [reflexivity|]. split; [reflexivity|]. split; [reflexivity|].
  split; [|split].
  - intros b Hin. rewrite handle_command_cases.
    assert (Hex : existsb (Byte.eqb b)
                    (list_byte_of_string Dongle.ACK_CHARS) = true).
    { apply existsb_exists. exists b. split; [exact Hin|apply byte_eqb_refl]. }
    rewrite Hex.
    destruct (Byte.eqb b "v") eqn:Ev;
      [apply Byte.byte_dec_bl in Ev; subst b; vm_compute in Hex; discriminate|].
    destruct (Byte.eqb b "b") eqn:Eb;
      [apply Byte.byte_dec_bl in Eb; subst b; vm_compute in Hex; discriminate|].
    destruct (Byte.eqb b "s") eqn:Es;
      [apply Byte.byte_dec_bl in Es; subst b; vm_compute in Hex; discriminate|].
    reflexivity.
  - intros b Hv Hb Hs Hnin. rewrite handle_command_cases.
    destruct (Byte.eqb b "v") eqn:Ev;
      [apply Byte.byte_dec_bl in Ev; contradiction|].
    destruct (Byte.eqb b "b") eqn:Eb;
      [apply Byte.byte_dec_bl in Eb; contradiction|].
    destruct (Byte.eqb b "s") eqn:Es;
      [apply Byte.byte_dec_bl in Es; contradiction|].
    destruct (existsb (Byte.eqb b) (list_byte_of_string Dongle.ACK_CHARS))
      eqn:Hex; [|reflexivity].
    apply existsb_exists in Hex as [c [Hc Hbc]].
    apply Byte.byte_dec_bl in Hbc. subst c. contradiction.
  - intros b. apply handle_command_no_close.
Qed.

Lemma command_state_machine_witness :
  Dongle.handle_command true "7" = (true, [Dongle.Wrote [","%byte]])
  /\ Dongle.handle_command true "Z" = (true, []).
Proof.
  split.
  - apply (proj1 (proj2 (proj2 (proj2 (command_state_machine true))))).
    vm_compute. tauto.
  - apply (proj1 (proj2 (proj2 (proj2 (proj2 (command_state_machine true))))));
      try discriminate.
    vm_compute. intuition discriminate.
Defined.

(** A start after a reset is not answered; a stop after it is not either,
    and nothing in a run of commands closes the descriptor. *)
Lemma commands_start_then_stop :
  Dongle.handle_commands false ["v"; "b"]%byte
  = (true, [Dongle.Wrote Dongle.ID_STRING])
  /\ Dongle.handle_commands true ["s"]%byte = (false, []).
Proof. split; reflexivity. Qed.

Lemma commands_never_close (streaming_enabled : bool) (cmd_bytes : bytes) :
  ~ In Dongle.Closed (snd (Dongle.handle_commands streaming_enabled cmd_bytes)).
Proof.
  revert streaming_enabled.
  induction cmd_bytes as [|b rest IH]; intros se; cbn [Dongle.handle_commands].
  - cbn. tauto.
  - pose proof (handle_command_no_close se b) as Hb.
    destruct (Dongle.handle_command se b) as [s1 ev1].
    specialize (IH s1).
    destruct (Dongle.handle_commands s1 rest) as [s2 ev2].
    cbn [snd] in *. intros Hin. apply in_app_or in Hin. tauto.
Qed.

(** ** The frame writer of the virtual dongle *)

Lemma out_pkt_frame (index : Z) (packet : bytes) :
  (0 <= index < 256)%Z ->
  Dongle.out_pkt index packet = Some (cyton_frame index (slice packet 10 34)).
Proof.
  intros Hi. unfold Dongle.out_pkt, Dongle.bytearray_append.
  destruct (Z.leb_spec 0 index) as [_|]; [|lia].
  destruct (Z.ltb_spec index 256) as [_|]; [|lia].
  cbn [andb]. unfold cyton_frame.
  change (byte_of_Z Dongle.OBCI_START_BYTE) with xa0.
  change ((0 <=? Dongle.OBCI_END_BYTE)%Z && (Dongle.OBCI_END_BYTE <? 256)%Z)
    with true.
  change (byte_of_Z Dongle.OBCI_END_BYTE) with xc0.
  cbv iota. f_equal. now rewrite <- !app_assoc.
Qed.

Lemma cyton_frame_length (index : Z) (data : bytes) :
  length (cyton_frame index data) = length data + 9.
Proof.
  unfold cyton_frame. rewrite !length_app, repeat_length. cbn [length]. lia.
Qed.

Lemma on_packets_app (ratio : Z) (s : Dongle.sink) (a b : list (bool * bytes)) :
  Dongle.on_packets ratio s (a ++ b)
  = match Dongle.on_packets ratio s a with
    | Some s' => Dongle.on_packets ratio s' b
    | None => None
    end.
Proof.
  revert s. induction a as [|[e p] a IH]; intros s; [reflexivity|].
  cbn [app Dongle.on_packets].
  destruct (Dongle.on_packet ratio e s p); [apply IH | reflexivity].
Qed.

Lemma kth_frame_snoc (N : nat) (packets : list bytes) (p : bytes) (n : nat) :
  0 < N ->
  n * N <= length packets ->
  map (kth_frame N (packets ++ [p])) (seq 0 n)
  = map (kth_frame N packets) (seq 0 n).
Proof.
  intros HN Hn. apply map_ext_in. intros k Hk. apply in_seq in Hk.
  unfold kth_frame. rewrite app_nth1; [reflexivity|]. nia.
Qed.

Lemma succ_div (m N : nat) :
  0 < N ->
  ((m + 1) mod N = 0 /\ (m + 1) / N = m / N + 1 /\ (m / N + 1) * N = m + 1)
  \/ ((m + 1) mod N <> 0 /\ (m + 1) / N = m / N).
Proof.
  intros HN.
  pose proof (Nat.div_mod_eq m N) as Hm.
  pose proof (Nat.mod_upper_bound m N ltac:(lia)) as Hr.
  set (q := m / N) in *. set (r := m mod N) in *.
  destruct (Nat.eq_dec (r + 1) N) as [E|E].
  - left.
    assert (Hm1 : m + 1 = N * (q + 1) + 0) by nia.
    assert (Hq : q + 1 = (m + 1) / N)
      by (apply (Nat.div_unique (m + 1) N (q + 1) 0); [lia | exact Hm1]).
    assert (H0 : 0 = (m + 1) mod N)
      by (apply (Nat.mod_unique (m + 1) N (q + 1) 0); [lia | exact Hm1]).
    repeat split; try lia; nia.
  - right.
    assert (Hm1 : m + 1 = N * q + (r + 1)) by lia.
    assert (Hq : q = (m + 1) / N)
      by (apply (Nat.div_unique (m + 1) N q (r + 1)); [lia | exact Hm1]).
    assert (H0 : r + 1 = (m + 1) mod N)
      by (apply (Nat.mod_unique (m + 1) N q (r + 1)); [lia | exact Hm1]).
    split; lia.
Qed.

(** The sink after any run of packets, streaming enabled throughout. *)
Lemma on_packets_streaming (N : nat) (packets : list bytes) :
  0 < N ->
  exists s,
    Dongle.on_packets (Z.of_nat N) Dongle.sink_init
      (map (fun p => (true, p)) packets) = Some s
    /\ Dongle.packet_counter s = Z.of_nat (length packets)
    /\ Dongle.sample_index s = (Z.of_nat (length packets / N) mod 256)%Z
    /\ Dongle.written s
       = map (kth_frame N packets) (seq 0 (length packets / N)).
Proof.
  intros HN. induction packets as [|p packets IH] using rev_ind.
  - exists Dongle.sink_init. cbn [map length Dongle.on_packets].
    rewrite Nat.Div0.div_0_l. repeat split.
  - destruct IH as (s & Hrun & Hc & Hi & Hw).
    rewrite map_app, on_packets_app, Hrun. cbn [map Dongle.on_packets].
    rewrite length_app. cbn [length].
    set (m := length packets) in *.
    unfold Dongle.on_packet.
    destruct (Z.eqb_spec (Z.of_nat N) 0) as [|_]; [lia|].
    rewrite Hc.
    replace (Z.of_nat m + 1)%Z with (Z.of_nat (m + 1)) by lia.
    rewrite <- Nat2Z.inj_mod.
    destruct (succ_div m N HN) as [(H0 & Hq & Hmul)|(H0 & Hq)].
    + rewrite H0. cbn [Z.of_nat Z.eqb].
      rewrite Hi, out_pkt_frame by (apply Z.mod_pos_bound; lia).
      eexists. split; [reflexivity|]. cbn [Dongle.packet_counter
        Dongle.sample_index Dongle.written].
      split; [reflexivity|]. split.
      * rewrite Hq, Z.add_mod_idemp_l by lia. f_equal. lia.
      * rewrite Hq, Hw, Nat.add_1_r, seq_S, map_app. cbn [map Nat.add].
        rewrite kth_frame_snoc by (fold m; nia || lia). f_equal.
        unfold kth_frame. rewrite Hmul.
        rewrite app_nth2 by (fold m; lia). fold m.
        replace (m + 1 - 1 - m) with 0 by lia. reflexivity.
    + destruct (Z.eqb_spec (Z.of_nat ((m + 1) mod N)) 0) as [E|_]; [lia|].
      eexists. split; [reflexivity|]. cbn [Dongle.packet_counter
        Dongle.sample_index Dongle.written].
      split; [reflexivity|]. rewrite Hq. split; [exact Hi|].
      rewrite Hw. symmetry. apply kth_frame_snoc; [exact HN|]. fold m.
      pose proof (Nat.div_mod_eq m N). nia.
Qed.

(** C8.  With ratio [N > 0] and [streaming_enabled] true at every packet,
    [M] packets of 37 bytes handled from the initial state (both counters
    zero) are handled without an exception and leave exactly [M / N] frames
    written.  Frame [k] is 0xA0, the byte [k mod 256], bytes 10..33 of the
    packet that was the [(k + 1) * N]-th to arrive, six zero bytes and 0xC0:
    33 bytes. *)
Theorem dongle_downsample (N M : nat) (packets : list bytes) :
  0 < N ->
  length packets = M ->
  Forall (fun p => length p = 37) packets ->
  exists s,
    Dongle.on_packets (Z.of_nat N) Dongle.sink_init
      (map (fun p => (true, p)) packets) = Some s
    /\ length (Dongle.written s) = M / N
    /\ (forall k, k < M / N ->
          nth k (Dongle.written s) []
          = [xa0; byte_of_Z (Z.of_nat k mod 256)]
            ++ slice (nth ((k + 1) * N - 1) packets []) 10 34
            ++ repeat x00 6 ++ [xc0])
    /\ Forall (fun f => length f = 33) (Dongle.written s).
Proof.
  intros HN HM H37. subst M.
  destruct (on_packets_streaming N packets HN) as (s & Hrun & _ & _ & Hw).
  exists s. split; [exact Hrun|]. rewrite Hw. split; [|split].
  - now rewrite length_map, length_seq.
  - intros k Hk.
    rewrite (nth_indep _ [] (kth_frame N packets 0))
      by (now rewrite length_map, length_seq).
    rewrite (map_nth (kth_frame N packets)), seq_nth by exact Hk.
    reflexivity.
  - apply Forall_forall. intros f Hf. apply in_map_iff in Hf as (k & <- & Hk).
    apply in_seq in Hk. unfold kth_frame.
    rewrite cyton_frame_length, slice_length; [reflexivity|].
    assert (Hidx : (k + 1) * N - 1 < length packets).
    { pose proof (Nat.div_mod_eq (length packets) N). nia. }
    rewrite Forall_forall in H37.
    rewrite (H37 (nth ((k + 1) * N - 1) packets [])) by (now apply nth_In).
    lia.
Qed.

Lemma dongle_downsample_witness :
  exists s,
    Dongle.on_packets (Z.of_nat 2) Dongle.sink_init
      (map (fun p => (true, p)) (repeat (raw_frame marker_payload) 5)) = Some s
    /\ length (Dongle.written s) = 5 / 2
    /\ (forall k, k < 5 / 2 ->
          nth k (Dongle.written s) []
          = [xa0; byte_of_Z (Z.of_nat k mod 256)]
            ++ slice (nth ((k + 1) * 2 - 1)
                        (repeat (raw_frame marker_payload) 5) []) 10 34
            ++ repeat x00 6 ++ [xc0])
    /\ Forall (fun f => length f = 33) (Dongle.written s).
Proof.
  apply (dongle_downsample 2 5 (repeat (raw_frame marker_payload) 5));
    [lia | reflexivity |].
  repeat constructor.
Defined.

(** ** What is forwarded *)

Lemma lsl_step_forwards_valid (buffer buffer' packet : bytes) :
  Lsl.parse_step buffer = Continue buffer' (Some packet) ->
  length packet = 37
  /\ startswith packet Lsl.start_marker = true
  /\ endswith packet Lsl.end_marker = true
  /\ Lsl.checksum_ok packet = true.
Proof.
  intros H. destruct (find buffer Lsl.start_marker) as [i|] eqn:Hf.
  - destruct (Nat.le_gt_cases (i + 37) (length buffer)) as [Hle|Hgt].
    + rewrite (lsl_step_found _ i Hf Hle) in H. unfold window_valid in H.
      destruct (endswith _ _) eqn:He; [|discriminate].
      destruct (Lsl.checksum_ok _) eqn:Hc; [|discriminate].
      cbn [andb] in H. injection H as _ <-.
      repeat split; try assumption.
      * rewrite slice_length by exact Hle. lia.
      * destruct (find_Some _ _ _ Hf) as [Hocc _]. unfold occurs_at in Hocc.
        destruct (startswith_inv _ _ Hocc) as [r Hr].
        unfold slice. rewrite Hr.
        replace (i + 37 - i) with (length Lsl.start_marker + 35)
          by (rewrite start_marker_bytes; cbn [length]; lia).
        rewrite firstn_app_2. apply startswith_app.
    + rewrite (lsl_step_short _ i Hf Hgt) in H. discriminate.
  - rewrite (lsl_step_no_marker _ Hf) in H. discriminate.
Qed.

(** Every packet the engine of [cerelog_lsl.py] forwards has passed the
    checksum test. *)
Lemma lsl_forwards_only_valid (fuel : nat) :
  forall buffer packets final,
    run_loop Lsl.parse_step fuel buffer = Some (packets, final) ->
    Forall (fun p => endswith p Lsl.end_marker = true
                     /\ Lsl.checksum_ok p = true) packets.
Proof.
  induction fuel as [|fuel IH]; intros buffer packets final H; [discriminate|].
  cbn [run_loop] in H.
  destruct (Lsl.parse_step buffer) as [b'|b' o] eqn:E.
  - injection H as <- _. constructor.
  - destruct (run_loop Lsl.parse_step fuel b') as [[ps f]|] eqn:Er;
      [|discriminate].
    injection H as <- _. apply Forall_app. split; [|exact (IH _ _ _ Er)].
    destruct o as [p|]; [|constructor].
    constructor; [|constructor].
    destruct (lsl_step_forwards_valid _ _ _ E) as (_ & _ & He & Hc). now split.
Qed.

(** The serial worker of the WiFi bridge runs the same pass. *)
Lemma wifi_step_is_lsl_step (buffer : bytes) :
  Wifi.parse_step buffer = Lsl.parse_step buffer.
Proof. reflexivity. Qed.

(** C1 at the virtual dongle.  [bad_checksum_window] has both markers and a
    checksum byte of 1 over a payload that sums to 0.  Read twice in a row
    with streaming enabled, it is counted twice by the dongle, which writes
    a 33-byte frame for the second copy; [cerelog_lsl.py] and the WiFi
    bridge forward nothing for the same bytes. *)
Theorem dongle_forwards_bad_checksum :
  endswith bad_checksum_window Dongle.end_marker = true
  /\ Lsl.checksum_ok bad_checksum_window = false
  /\ Dongle.stream_round true [] Dongle.sink_init
       (bad_checksum_window ++ bad_checksum_window)
     = Some ([], {| Dongle.packet_counter := 2;
                    Dongle.sample_index := 1;
                    Dongle.written := [cyton_frame 0 (repeat x00 24)] |})
  /\ Lsl.feed [] (bad_checksum_window ++ bad_checksum_window)
     = Some ([], [xba])
  /\ parse_buffer Wifi.parse_step (bad_checksum_window ++ bad_checksum_window)
     = Some ([], [xba]).
Proof. repeat split; vm_compute; reflexivity. Qed.

(** ** The handshake check *)



Lemma wifi_handshake_is_lsl_handshake (candidate_ports : list port) :
  Wifi.find_and_open_board candidate_ports
  = Lsl.find_and_open_board candidate_ports.
Proof. reflexivity. Qed.

(** C6 at the virtual dongle.  [silent_port] answers a single zero byte,
    which does not hold the start marker.  The dongle returns that port as
    the board and never tries [board_port]; [cerelog_lsl.py] and the WiFi
    bridge close it and return [board_port]. *)
Theorem dongle_accepts_burst_without_marker :
  contains [x00] Dongle.start_marker = false
  /\ Dongle.find_and_open_board [silent_port; board_port]
     = {| opened := Some "/dev/ttyUSB0"%string; closed := [] |}
  /\ Lsl.find_and_open_board [silent_port; board_port]
     = {| opened := Some "/dev/ttyUSB1"%string;
          closed := ["/dev/ttyUSB0"%string] |}
  /\ Wifi.find_and_open_board [silent_port; board_port]
     = {| opened := Some "/dev/ttyUSB1"%string;
          closed := ["/dev/ttyUSB0"%string] |}.
Proof. repeat split; vm_compute; reflexivity. Qed.

(** ** A frame after garbage, however the stream is cut into reads *)

Lemma startswith_app_l (l r sub : bytes) :
  startswith l sub = true -> startswith (l ++ r) sub = true.
Proof.
  intros H. destruct (startswith_inv _ _ H) as [t ->].
  rewrite <- app_assoc. apply startswith_app.
Qed.

Lemma occurs_at_app_l (l r sub : bytes) (i : nat) :
  occurs_at l sub i = true -> occurs_at (l ++ r) sub i = true.
Proof.
  unfold occurs_at. intros H. rewrite skipn_app. now apply startswith_app_l.
Qed.

Lemma occurs_at_bound (l : bytes) (i : nat) :
  occurs_at l Lsl.start_marker i = true -> i + 2 <= length l.
Proof.
  unfold occurs_at. intros H. apply startswith_length in H.
  rewrite length_skipn, start_marker_bytes in H. cbn [length] in H. lia.
Qed.

Lemma lsl_feed_nonempty (buffer read : bytes) :
  read <> [] ->
  Lsl.feed buffer read = parse_buffer Lsl.parse_step (buffer ++ read).
Proof. destruct read; [congruence | reflexivity]. Qed.

Lemma lsl_feed_all_nothing (buffer : bytes) (reads : list bytes) :
  concat reads = [] -> Lsl.feed_all buffer reads = Some ([], buffer).
Proof.
  induction reads as [|r reads IH]; intros H; [reflexivity|].
  cbn [concat] in H. apply app_eq_nil in H as [-> H].
  cbn [Lsl.feed_all Lsl.feed]. now rewrite (IH H).
Qed.

Lemma slice_app_l (l r : bytes) (a b : nat) :
  b <= length l -> slice (l ++ r) a b = slice l a b.
Proof.
  intros H. unfold slice. rewrite skipn_app, firstn_app, length_skipn.
  replace (b - a - (length l - a)) with 0 by lia.
  cbn [firstn]. apply app_nil_r.
Qed.

Section GarbageThenFrame.

Variables (G P : bytes).
Hypothesis P_length : length P = 32.

Let F : bytes := raw_frame P.
Let K : nat := length G.

(** No window that starts at a marker before the frame passes both tests. *)
Hypothesis G_bad :
  forall i, i < K ->
            occurs_at (G ++ F) Lsl.start_marker i = true ->
            window_valid (slice (G ++ F) i (i + 37)) = false.

(** [fed] is what has been read so far and [unread] what is still to come. *)
Variables (fed unread : bytes).
Hypothesis fed_prefix : fed ++ unread = G ++ F.

Lemma frame_marker_fed : K + 2 <= length fed ->
  occurs_at fed Lsl.start_marker K = true.
Proof.
  intros Hlen.
  destruct (app_eq_app _ _ _ _ fed_prefix) as [l [[Hfed HFl]|[HG _]]];
    [|apply (f_equal (@length byte)) in HG; rewrite length_app in HG;
      fold K in HG; lia].
  assert (Hl : length l = length fed - K)
    by (rewrite Hfed, length_app; fold K; lia).
  rewrite Hfed. unfold K. rewrite occurs_at_app_shift.
  pose proof (raw_frame_bytes P) as E. fold F in E. rewrite HFl in E.
  destruct l as [|l0 [|l1 l]]; cbn [length] in Hl; [lia|lia|].
  cbn [app] in E. injection E as -> -> _. reflexivity.
Qed.

(** The first marker of the buffer is not past the start of the frame. *)
Lemma first_marker_fed (d i : nat) :
  d <= K ->
  find (skipn d fed) Lsl.start_marker = Some i ->
  occurs_at fed Lsl.start_marker (d + i) = true /\ d + i <= K.
Proof.
  intros Hd Hf. destruct (find_Some _ _ _ Hf) as [Hi Hmin].
  rewrite occurs_at_skipn in Hi. split; [exact Hi|].
  pose proof (occurs_at_bound _ _ Hi) as Hb.
  destruct (Nat.le_gt_cases (d + i) K) as [H|H]; [exact H|].
  assert (HK : occurs_at (skipn d fed) Lsl.start_marker (K - d) = true).
  { rewrite occurs_at_skipn. replace (d + (K - d)) with K by lia.
    apply frame_marker_fed. lia. }
  rewrite Hmin in HK by lia. discriminate.
Qed.

(** One parse while the frame is still incomplete: nothing is forwarded,
    and the buffer is still what was read, less some bytes before the
    frame. *)
Lemma lsl_parse_incomplete (fuel : nat) :
  forall d,
    length fed < K + 37 -> d <= K -> d <= length fed ->
    length fed - d < fuel ->
    exists d',
      d' <= K /\ d' <= length fed
      /\ run_loop Lsl.parse_step fuel (skipn d fed) = Some ([], skipn d' fed).
Proof.
  induction fuel as [|fuel IH]; intros d Hlen HdK Hd Hfuel; [lia|].
  cbn [run_loop].
  destruct (find (skipn d fed) Lsl.start_marker) as [i|] eqn:Hf.
  - destruct (first_marker_fed d i HdK Hf) as [Hocc HiK].
    destruct (Nat.le_gt_cases (i + 37) (length (skipn d fed))) as [Hle|Hgt].
    + rewrite length_skipn in Hle.
      rewrite (lsl_step_found _ i Hf) by (rewrite length_skipn; lia).
      rewrite slice_skipn.
      replace (d + (i + 37)) with (d + i + 37) by lia.
      assert (Hw : slice fed (d + i) (d + i + 37)
                   = slice (G ++ F) (d + i) (d + i + 37))
        by (rewrite <- fed_prefix, slice_app_l by lia; reflexivity).
      rewrite Hw, G_bad;
        [|lia|rewrite <- fed_prefix; now apply occurs_at_app_l].
      rewrite skipn_skipn.
      destruct (IH (i + 1 + d)) as (d' & H1 & H2 & H3); try lia.
      exists d'. rewrite H3. now repeat split.
    + rewrite (lsl_step_short _ i Hf Hgt). exists d. now repeat split.
  - rewrite (lsl_step_no_marker _ Hf). unfold slice_last.
    rewrite skipn_skipn, length_skipn.
    exists (length fed - d - 1 + d). repeat split; [|lia].
    destruct (Nat.le_gt_cases (K + 2) (length fed)) as [H|H]; [|lia].
    pose proof (frame_marker_fed H) as HK.
    pose proof (find_None _ _ Hf (K - d)) as Hno.
    rewrite occurs_at_skipn in Hno.
    replace (d + (K - d)) with K in Hno by lia. congruence.
Qed.

End GarbageThenFrame.

(** Reads that add up to [G ++ F], where [F] is a device frame and no window
    that starts at a marker inside [G] passes both tests: whatever the
    sizes of the reads, the engine forwards [F] and nothing else, and ends
    with an empty buffer. *)
Lemma lsl_feed_all_garbage_then_frame (G P : bytes) :
  length P = 32 ->
  (forall i, i < length G ->
             occurs_at (G ++ raw_frame P) Lsl.start_marker i = true ->
             window_valid (slice (G ++ raw_frame P) i (i + 37)) = false) ->
  forall (reads : list bytes) (fed : bytes) (d : nat),
    fed ++ concat reads = G ++ raw_frame P ->
    d <= length fed -> d <= length G -> length fed < length G + 37 ->
    Lsl.feed_all (skipn d fed) reads = Some ([raw_frame P], []).
Proof.
  intros HP Hbad.
  assert (HF : length (raw_frame P) = 37) by (now apply raw_frame_length).
  induction reads as [|read rest IH]; intros fed d Hcat Hd HdK Hlen.
  { cbn [concat] in Hcat. rewrite app_nil_r in Hcat.
    rewrite Hcat, length_app, HF in Hlen. lia. }
  destruct read as [|b read'].
  { cbn [Lsl.feed_all Lsl.feed]. rewrite (IH fed d Hcat Hd HdK Hlen).
    reflexivity. }
  set (read := b :: read') in *.
  assert (Hne : read <> []) by discriminate.
  cbn [concat] in Hcat. rewrite app_assoc in Hcat.
  set (fed' := fed ++ read) in *.
  assert (Hlen' : length fed' = length fed + S (length read'))
    by apply length_app.
  assert (HX : skipn d fed ++ read = skipn d fed').
  { unfold fed'. rewrite skipn_app. replace (d - length fed) with 0 by lia.
    reflexivity. }
  assert (Htotal : length fed' + length (concat rest) = length G + 37).
  { rewrite <- length_app, Hcat, length_app, HF. reflexivity. }
  cbn [Lsl.feed_all]. rewrite (lsl_feed_nonempty _ _ Hne), HX.
  destruct (Nat.le_gt_cases (length G + 37) (length fed')) as [HC|HI].
  - (* the frame is complete *)
    assert (Hrest : concat rest = []) by (apply length_zero_iff_nil; lia).
    assert (Hfed : fed' = G ++ raw_frame P)
      by (rewrite Hrest, app_nil_r in Hcat; exact Hcat).
    assert (Hsk : skipn d fed' = skipn d G ++ raw_frame P).
    { rewrite Hfed, skipn_app. replace (d - length G) with 0 by lia.
      reflexivity. }
    unfold parse_buffer. rewrite Hsk.
    rewrite (lsl_garbage_then_window _ (skipn d G) (raw_frame P)).
    + rewrite (lsl_feed_all_nothing _ _ Hrest). reflexivity.
    + rewrite length_app. lia.
    + exact HF.
    + apply raw_frame_startswith.
    + now apply raw_frame_valid.
    + intros i Hi. rewrite length_skipn in Hi.
      rewrite <- Hsk, Hfed, occurs_at_skipn, slice_skipn.
      replace (d + (i + 37)) with (d + i + 37) by lia.
      apply Hbad. lia.
  - (* the frame is not complete *)
    destruct (lsl_parse_incomplete G P HP Hbad fed' (concat rest) Hcat
                (S (length (skipn d fed'))) d)
      as (d' & H1 & H2 & H3); try lia.
    { rewrite length_skipn. lia. }
    unfold parse_buffer. rewrite H3.
    rewrite (IH fed' d'); [reflexivity | exact Hcat | lia | lia | lia].
Qed.

(** C3, as the code has it.  (a) When a start marker is found, the 37-byte
    window is there and it fails the end-marker test or the checksum test,
    the pass forwards nothing and drops the buffer up to and including the
    first byte of that marker.  (b) Bytes [G] followed by one device frame,
    where no 37-byte window that starts at a start marker inside [G] passes
    both tests, read into an empty buffer in any number of reads, make the
    engine forward exactly one packet, the frame, and leave the buffer
    empty. *)
Theorem lsl_false_marker_recovery :
  (forall (buffer : bytes) (i : nat),
      find buffer Lsl.start_marker = Some i ->
      i + 37 <= length buffer ->
      window_valid (slice buffer i (i + 37)) = false ->
      Lsl.parse_step buffer = Continue (slice_from buffer (i + 1)) None)
  /\
  (forall (G P : bytes) (reads : list bytes),
      length P = 32 ->
      (forall i, i < length G ->
                 occurs_at (G ++ raw_frame P) Lsl.start_marker i = true ->
                 window_valid (slice (G ++ raw_frame P) i (i + 37)) = false) ->
      concat reads = G ++ raw_frame P ->
      Lsl.feed_all [] reads = Some ([raw_frame P], [])).
Proof.
  split.
  - intros buffer i Hf Hlen Hbad.
    rewrite (lsl_step_found _ i Hf Hlen), Hbad. reflexivity.
  - intros G P reads HP Hbad Hcat.
    apply (lsl_feed_all_garbage_then_frame G P HP Hbad) with (fed := []) (d := 0);
      cbn [app length]; [exact Hcat | lia | lia | lia].
Qed.

Lemma lsl_false_marker_recovery_witness :
  Lsl.parse_step (stray_marker_bytes ++ raw_frame (repeat x00 32))
  = Continue (slice_from (stray_marker_bytes ++ raw_frame (repeat x00 32)) 2) None
  /\ Lsl.feed_all []
       [stray_marker_bytes ++ firstn 5 (raw_frame (repeat x00 32));
        skipn 5 (raw_frame (repeat x00 32))]
     = Some ([raw_frame (repeat x00 32)], []).
Proof.
  split.
  - apply (proj1 lsl_false_marker_recovery
             (stray_marker_bytes ++ raw_frame (repeat x00 32)) 1);
      [reflexivity | vm_compute; lia | reflexivity].
  - apply (proj2 lsl_false_marker_recovery stray_marker_bytes (repeat x00 32));
      [reflexivity| |reflexivity].
    intros i Hi Hocc.
    do 5 (destruct i as [|i]; [vm_compute in Hocc |- *; congruence|]).
    vm_compute in Hi. lia.
Defined.

(** C3 as it is written fails: the five bytes [stray_marker_bytes] hold the
    start marker and are no frame, the frame that follows them is a valid
    device frame, and the one packet the engine forwards is the window that
    starts at the stray marker; the frame itself is never forwarded. *)
Lemma lsl_false_marker_counterexample :
  length unlucky_payload = 32
  /\ contains stray_marker_bytes Lsl.start_marker = true
  /\ length stray_marker_bytes < 37
  /\ window_valid (raw_frame unlucky_payload) = true
  /\ Lsl.feed_all [] [stray_marker_bytes ++ raw_frame unlucky_payload]
     = Some ([slice (stray_marker_bytes ++ raw_frame unlucky_payload) 1 38],
             [xba])
  /\ slice (stray_marker_bytes ++ raw_frame unlucky_payload) 1 38
     <> raw_frame unlucky_payload.
Proof.
  repeat split; try reflexivity.
  - vm_compute. lia.
  - vm_compute. discriminate.
Qed.

(** C4.  [K] bytes without the start marker followed by one device frame,
    read into an empty buffer in any number of reads of any sizes, make the
    engine forward exactly one packet, the frame, and leave the buffer
    empty: all [K + 37] bytes are consumed. *)
Theorem lsl_resync_after_garbage (K : nat) (G P : bytes) (reads : list bytes) :
  length G = K ->
  contains G Lsl.start_marker = false ->
  length P = 32 ->
  concat reads = G ++ raw_frame P ->
  Lsl.feed_all [] reads = Some ([raw_frame P], [])
  /\ length (concat reads) = K + 37.
Proof.
  intros HK HG HP Hcat. split.
  - apply (lsl_feed_all_garbage_then_frame G P HP) with (fed := []) (d := 0);
      cbn [app length]; [|exact Hcat | lia | lia | lia].
    intros i Hi Hocc.
    rewrite no_marker_before_frame in Hocc;
      [discriminate | exact HG | apply raw_frame_startswith | exact Hi].
  - rewrite Hcat, length_app, (raw_frame_length P HP), HK. reflexivity.
Qed.

Lemma lsl_resync_after_garbage_witness :
  Lsl.feed_all []
    [[x01; x02; x03; xab]; []; skipn 1 (firstn 20 (raw_frame marker_payload));
     skipn 20 (raw_frame marker_payload)]
  = Some ([raw_frame marker_payload], [])
  /\ length (concat
       [[x01; x02; x03; xab]; [];
        skipn 1 (firstn 20 (raw_frame marker_payload));
        skipn 20 (raw_frame marker_payload)]) = 3 + 37.
Proof.
  apply (lsl_resync_after_garbage 3 [x01; x02; x03] marker_payload);
    reflexivity.
Defined.

(** ** Further facts about the sinks *)

(** The dongle's pass always continues on a shorter buffer, so its loop
    stops within its fuel too. *)
Lemma dongle_step_shrinks (buffer buffer' : bytes) (o : option bytes) :
  Dongle.parse_step buffer = Continue buffer' o ->
  length buffer' < length buffer.
Proof.
  unfold Dongle.parse_step.
  destruct (find buffer Dongle.start_marker) as [i|] eqn:Hf.
  - change Dongle.RAW_SIZE with 37.
    destruct (Nat.ltb_spec (length buffer) (i + 37)) as [Hlt|Hge];
      [discriminate|].
    unfold slice_from.
    destruct (endswith _ _);
      intros H; injection H as <- _; rewrite length_skipn; lia.
  - destruct (0 <? length buffer); discriminate.
Qed.

Lemma dongle_parse_total (buffer : bytes) :
  exists r, parse_buffer Dongle.parse_step buffer = Some r.
Proof.
  apply run_loop_total; [exact dongle_step_shrinks | lia].
Qed.

(** The dongle forwards a window with both markers whatever its checksum
    byte is. *)
Lemma dongle_ignores_checksum (P : bytes) (c : byte) :
  length P = 32 ->
  Dongle.parse_step ([xab; xcd] ++ P ++ [c] ++ [xdc; xba])
  = Continue [] (Some ([xab; xcd] ++ P ++ [c] ++ [xdc; xba])).
Proof.
  intros HP. set (w := [xab; xcd] ++ P ++ [c] ++ [xdc; xba]).
  assert (Hlen : length w = 37)
    by (unfold w; rewrite !length_app, HP; reflexivity).
  unfold Dongle.parse_step.
  assert (Hf : find w Dongle.start_marker = Some 0) by reflexivity.
  change Dongle.RAW_SIZE with 37.
  rewrite Hf, Hlen. change (0 + 37) with 37.
  change (37 <? 37) with false. cbv iota.
  assert (Hs : slice w 0 37 = w).
  { unfold slice. cbn [skipn Nat.sub]. rewrite <- Hlen. apply firstn_all. }
  assert (He : endswith w Dongle.end_marker = true).
  { unfold w. rewrite !app_assoc. apply endswith_app. }
  rewrite Hs, He. unfold slice_from.
  rewrite (skipn_all2 w) by (rewrite Hlen; apply Nat.le_refl). reflexivity.
Qed.

(** One frame read by [cerelog_lsl.py] pushes one sample of eight values to
    the outlet. *)
Lemma lsl_round_pushes_one_sample (P : bytes) (outlet : list (list float)) :
  length P = 32 ->
  Lsl.stream_round [] outlet (raw_frame P)
  = Some ([], outlet ++ [Lsl.lsl_sample (raw_frame P)])
  /\ length (Lsl.lsl_sample (raw_frame P)) = 8.
Proof.
  intros HP. split.
  - unfold Lsl.stream_round.
    assert (Hfeed : Lsl.feed [] (raw_frame P)
                    = Some ([raw_frame P], [])).
    { pose proof (raw_frame_length P HP) as HL.
      rewrite lsl_feed_nonempty by (rewrite raw_frame_bytes; discriminate).
      unfold parse_buffer. cbn [app].
      apply (lsl_garbage_then_window _ [] (raw_frame P)); cbn [length app].
      - lia.
      - exact HL.
      - apply raw_frame_startswith.
      - now apply raw_frame_valid.
      - intros i Hi. lia. }
    rewrite Hfeed. reflexivity.
  - unfold Lsl.lsl_sample, decode_channels. now rewrite !length_map, length_seq.
Qed.

(** A row of the WiFi bridge: eight raw channel values, three zeros and the
    timestamp. *)
Lemma wifi_row_shape (packet : bytes) (now_ms : float) :
  Wifi.row_data packet now_ms
  = map Wifi.Int (decode_channels packet)
    ++ [Wifi.Int 0; Wifi.Int 0; Wifi.Int 0; Wifi.Float now_ms]
  /\ length (Wifi.row_data packet now_ms) = 12.
Proof.
  split; [reflexivity|].
  unfold Wifi.row_data, decode_channels.
  now rewrite !length_app, !length_map, length_seq.
Qed.

(** Draining hands every queued row over, in order, and leaves the queue
    empty. *)
Lemma queue_drain_empties (A : Type) (chunk_buffer data_queue : list A) :
  Wifi.queue_drain chunk_buffer data_queue = (chunk_buffer ++ data_queue, []).
Proof.
  destruct data_queue; cbn [Wifi.queue_drain];
    [now rewrite app_nil_r | reflexivity].
Qed.

(** * Further properties of the scripts *)

(** ** The handshake packet *)

Lemma to_bytes_4 (v : Z) :
  to_bytes 4 v
  = [byte_of_Z (v / 16777216); byte_of_Z (v / 65536); byte_of_Z (v / 256);
     byte_of_Z v].
Proof.
  unfold to_bytes.
  change (256 ^ Z.of_nat 3)%Z with 16777216%Z.
  change (256 ^ Z.of_nat 2)%Z with 65536%Z.
  change (256 ^ Z.of_nat 1)%Z with 256%Z.
  change (256 ^ Z.of_nat 0)%Z with 1%Z.
  now rewrite Z.div_1_r.
Qed.

Lemma to_bytes_1 (v : Z) : to_bytes 1 v = [byte_of_Z v].
Proof.
  unfold to_bytes. change (256 ^ Z.of_nat 0)%Z with 1%Z.
  now rewrite Z.div_1_r.
Qed.

Lemma from_bytes_unsigned_to_bytes_4 (v : Z) :
  (0 <= v < 2 ^ 32)%Z -> from_bytes_unsigned (to_bytes 4 v) = v.
Proof.
  intros Hv. rewrite to_bytes_4. unfold from_bytes_unsigned.
  cbn [fold_left]. rewrite !byte_val_of_Z.
  change (2 ^ 32)%Z with 4294967296%Z in Hv.
  Z.div_mod_to_equations. lia.
Qed.

(** X1.  For a time [t] that fits 32 bits the handshake packet is built and
    has 12 bytes: AA BB, the message type 02, the four bytes of [t] most
    significant first, 01, the baud index 04, the checksum, CC DD.  The
    checksum is the sum of the seven bytes between BB and itself, modulo
    256, and [t] is read back from its four bytes.  For any other [t]
    [struct.pack] raises and no packet is built. *)
Theorem handshake_packet_layout (t : Z) :
  ((0 <= t < 2 ^ 32)%Z ->
   exists ts c,
     handshake_packet t
     = Some ([xaa; xbb; x02] ++ ts ++ [x01; x04; c; xcc; xdd])
     /\ length ts = 4
     /\ from_bytes_unsigned ts = t
     /\ byte_val c = (sum ([x02] ++ ts ++ [x01; x04]) mod 256)%Z)
  /\ (~ (0 <= t < 2 ^ 32)%Z -> handshake_packet t = None).
Proof.
  unfold handshake_packet, struct_pack_I.
  change (struct_pack_B 2) with (Some [x02]).
  split.
  - intros Ht.
    destruct (Z.leb_spec 0 t) as [_|]; [|lia].
    destruct (Z.ltb_spec t (2 ^ 32)) as [_|]; [|lia].
    cbn [andb].
    exists (to_bytes 4 t).
    set (payload := ([x02] ++ to_bytes 4 t)
                    ++ [byte_of_Z 1; byte_of_Z FIRMWARE_BAUD_RATE_INDEX]).
    exists (byte_of_Z (Z.land (sum payload) 255)).
    assert (Hrange : (0 <= Z.land (sum payload) 255 < 256)%Z)
      by (rewrite land_255; apply Z.mod_pos_bound; lia).
    unfold struct_pack_B.
    destruct (Z.leb_spec 0 (Z.land (sum payload) 255)) as [_|]; [|lia].
    destruct (Z.ltb_spec (Z.land (sum payload) 255) 256) as [_|]; [|lia].
    cbn [andb]. split; [|split; [|split]].
    + rewrite to_bytes_1. unfold payload. reflexivity.
    + now rewrite to_bytes_4.
    + now apply from_bytes_unsigned_to_bytes_4.
    + rewrite byte_val_of_Z, land_255, Z.mod_mod by lia.
      unfold payload. now rewrite <- app_assoc.
  - intros Ht.
    destruct (Z.leb_spec 0 t); destruct (Z.ltb_spec t (2 ^ 32));
      try reflexivity; lia.
Qed.

Lemma handshake_packet_layout_witness :
  (exists ts c,
     handshake_packet 1700000000
     = Some ([xaa; xbb; x02] ++ ts ++ [x01; x04; c; xcc; xdd])
     /\ length ts = 4
     /\ from_bytes_unsigned ts = 1700000000%Z
     /\ byte_val c = (sum ([x02] ++ ts ++ [x01; x04]) mod 256)%Z)
  /\ handshake_packet (2 ^ 32) = None.
Proof.
  split.
  - apply (proj1 (handshake_packet_layout 1700000000)). lia.
  - apply (proj2 (handshake_packet_layout (2 ^ 32))). lia.
Defined.

(** ** The candidate loop *)




(** ** The choice of candidate ports *)

Lemma select_candidates_cases (f : port_info -> bool) (ports : list port_info) :
  select_candidates f ports
  = if existsb f ports then map info_device (filter f ports)
    else map info_device ports.
Proof.
  unfold select_candidates.
  induction ports as [|p ports IH]; [reflexivity|].
  cbn [existsb filter]. destruct (f p); [reflexivity|].
  cbn [orb]. destruct (existsb f ports) eqn:E.
  - destruct (map info_device (filter f ports)) eqn:Em; [|reflexivity].
    apply map_eq_nil in Em. apply existsb_exists in E as (q & Hq & Hfq).
    assert (Hin : In q (filter f ports)) by (apply filter_In; now split).
    rewrite Em in Hin. destruct Hin.
  - destruct (map info_device (filter f ports)) eqn:Em; [reflexivity|].
    exfalso. destruct (filter f ports) as [|q qs] eqn:Ef; [discriminate|].
    assert (Hin : In q (filter f ports)) by (rewrite Ef; now left).
    apply filter_In in Hin as [Hq Hfq].
    assert (Hex : existsb f ports = true)
      by (apply existsb_exists; now exists q).
    congruence.
Qed.

(** X3.  Whatever the filter, the candidates are devices of the ports
    listed; there is a candidate as soon as there is a port; a port that
    passes the filter is always a candidate; and a port that does not pass
    it is a candidate only when no port passes it (then every port is). *)
Theorem select_candidates_fallback (f : port_info -> bool)
  (ports : list port_info) :
  incl (select_candidates f ports) (map info_device ports)
  /\ (ports <> [] -> select_candidates f ports <> [])
  /\ (forall p, In p ports -> f p = true ->
                In (info_device p) (select_candidates f ports))
  /\ (existsb f ports = true ->
      select_candidates f ports = map info_device (filter f ports))
  /\ (existsb f ports = false ->
      select_candidates f ports = map info_device ports).
Proof.
  rewrite select_candidates_cases.
  destruct (existsb f ports) eqn:E; repeat split; try discriminate;
    try reflexivity.
  - intros d Hd. apply in_map_iff in Hd as (p & <- & Hp).
    apply filter_In in Hp as [Hp _]. now apply in_map.
  - intros _ Hnil. apply map_eq_nil in Hnil.
    apply existsb_exists in E as (q & Hq & Hfq).
    assert (Hin : In q (filter f ports)) by (apply filter_In; now split).
    rewrite Hnil in Hin. destruct Hin.
  - intros p Hp Hfp. apply in_map. apply filter_In. now split.
  - apply incl_refl.
  - intros Hne Hnil. apply map_eq_nil in Hnil. contradiction.
  - intros p Hp _. now apply in_map.
Qed.

Lemma select_candidates_fallback_witness :
  select_candidates usb_id_matches
    [ {| info_device := "COM3"; vid := Some 0x0403%Z; pid := Some 0x6001%Z;
         description := Some "USB Serial Port"%string |} ]
  = ["COM3"%string]
  /\ select_candidates usb_id_matches
       [ {| info_device := "COM3"; vid := Some 0x0403%Z; pid := Some 0x6001%Z;
            description := Some "USB Serial Port"%string |};
         {| info_device := "COM4"; vid := Some 0x1A86%Z; pid := Some 0x7523%Z;
            description := None |} ]
     = ["COM4"%string].
Proof.
  split.
  - apply (proj2 (proj2 (proj2 (proj2
             (select_candidates_fallback usb_id_matches
                [ {| info_device := "COM3"; vid := Some 0x0403%Z;
                     pid := Some 0x6001%Z;
                     description := Some "USB Serial Port"%string |} ]))))).
    reflexivity.
  - apply (proj1 (proj2 (proj2 (proj2
             (select_candidates_fallback usb_id_matches
                [ {| info_device := "COM3"; vid := Some 0x0403%Z;
                     pid := Some 0x6001%Z;
                     description := Some "USB Serial Port"%string |};
                  {| info_device := "COM4"; vid := Some 0x1A86%Z;
                     pid := Some 0x7523%Z; description := None |} ]))))).
    reflexivity.
Defined.

Lemma contains_occurs (l sub : bytes) :
  contains l sub = true <-> exists i, occurs_at l sub i = true.
Proof.
  unfold contains. destruct (find l sub) as [i|] eqn:E.
  - split; [|reflexivity]. intros _. exists i.
    now destruct (find_Some _ _ _ E).
  - split; [discriminate|]. intros [i Hi].
    now rewrite (find_None _ _ E i) in Hi.
Qed.

Lemma contains_app_r (l a b : bytes) :
  contains l (a ++ b) = true -> contains l b = true.
Proof.
  rewrite !contains_occurs. intros [i Hi]. exists (length a + i).
  unfold occurs_at in *. destruct (startswith_inv _ _ Hi) as [r Hr].
  rewrite <- skipn_skipn, Hr, <- app_assoc, skipn_app, skipn_all, Nat.sub_diag.
  cbn [app skipn]. apply startswith_app.
Qed.

(** X4.  In [cerelog_lsl.py] and the WiFi bridge a port is a candidate by
    its description exactly when the description, with A-Z turned to lower
    case, contains "ch340": the longer entry of [BOARD_DESCRIPTIONS] adds
    nothing, and a missing or empty description never matches. *)
Theorem description_filter_is_ch340 (p : port_info) :
  description_matches p
  = match description p with
    | Some d => contains (lower d) (list_byte_of_string "ch340")
    | None => false
    end.
Proof.
  unfold description_matches. destruct (description p) as [d|]; [|reflexivity].
  unfold BOARD_DESCRIPTIONS. cbn [existsb].
  change (lower "CH340") with (list_byte_of_string "ch340").
  change (lower "USB-SERIAL CH340")
    with (list_byte_of_string "usb-serial " ++ list_byte_of_string "ch340").
  rewrite orb_false_r.
  destruct (contains (lower d) (list_byte_of_string "ch340")) eqn:E.
  - rewrite orb_true_r, andb_true_r.
    destruct d; [discriminate E | reflexivity].
  - destruct (contains (lower d)
                (list_byte_of_string "usb-serial "
                 ++ list_byte_of_string "ch340")) eqn:E2.
    + apply contains_app_r in E2. congruence.
    + now rewrite andb_false_r.
Qed.

(** ** What the parse loop leaves in the buffer *)

Lemma find_absent (l sub : bytes) :
  (forall j, occurs_at l sub j = false) -> find l sub = None.
Proof.
  intros H. destruct (find l sub) as [i|] eqn:E; [|reflexivity].
  destruct (find_Some _ _ _ E) as [Hi _]. rewrite H in Hi. discriminate.
Qed.

Lemma find_short (l : bytes) :
  length l < 2 -> find l Lsl.start_marker = None.
Proof.
  intros H. apply find_absent. intros j.
  destruct (occurs_at l Lsl.start_marker j) eqn:E; [|reflexivity].
  apply occurs_at_bound in E. lia.
Qed.

Lemma slice_last_short (l : bytes) : length l <= 1 -> slice_last l = l.
Proof.
  intros H. unfold slice_last. now replace (length l - 1) with 0 by lia.
Qed.

Lemma slice_last_length (l : bytes) : length (slice_last l) <= 1.
Proof. unfold slice_last. rewrite length_skipn. lia. Qed.

Lemma at_rest_slice_last (l : bytes) : at_rest (slice_last l) = true.
Proof.
  unfold at_rest. pose proof (slice_last_length l) as H.
  rewrite find_short by lia. now apply Nat.leb_le.
Qed.

Lemma lsl_step_break (b b' : bytes) :
  Lsl.parse_step b = Break b' ->
  at_rest b' = true /\ exists d, d <= length b /\ b' = skipn d b.
Proof.
  intros H. destruct (find b Lsl.start_marker) as [i|] eqn:Hf.
  - destruct (Nat.le_gt_cases (i + 37) (length b)) as [Hle|Hgt].
    + rewrite (lsl_step_found _ i Hf Hle) in H.
      destruct (window_valid _); discriminate.
    + rewrite (lsl_step_short _ i Hf Hgt) in H. injection H as <-.
      split; [|exists 0; split; [lia | reflexivity]].
      unfold at_rest. rewrite Hf. now apply Nat.ltb_lt.
  - rewrite (lsl_step_no_marker _ Hf) in H. injection H as <-.
    split; [apply at_rest_slice_last|].
    exists (length b - 1). split; [lia | reflexivity].
Qed.

Lemma lsl_step_continue (b b' : bytes) (o : option bytes) :
  Lsl.parse_step b = Continue b' o ->
  exists d, d <= length b /\ b' = skipn d b
            /\ 37 * length (forwarded_list o) <= d.
Proof.
  intros H. destruct (find b Lsl.start_marker) as [i|] eqn:Hf.
  - destruct (Nat.le_gt_cases (i + 37) (length b)) as [Hle|Hgt].
    + rewrite (lsl_step_found _ i Hf Hle) in H.
      destruct (window_valid _); injection H as <- <-.
      * exists (i + 37). cbn [forwarded_list length]. repeat split; lia.
      * exists (i + 1). cbn [forwarded_list length]. repeat split; lia.
    + rewrite (lsl_step_short _ i Hf Hgt) in H. discriminate.
  - rewrite (lsl_step_no_marker _ Hf) in H. discriminate.
Qed.

Lemma lsl_at_rest_break (b : bytes) :
  at_rest b = true -> Lsl.parse_step b = Break b.
Proof.
  unfold at_rest. destruct (find b Lsl.start_marker) as [i|] eqn:Hf; intros H.
  - apply Nat.ltb_lt in H. now apply (lsl_step_short _ i).
  - apply Nat.leb_le in H.
    now rewrite (lsl_step_no_marker _ Hf), slice_last_short.
Qed.

Lemma lsl_run_leftover (fuel : nat) :
  forall buffer packets final,
    run_loop Lsl.parse_step fuel buffer = Some (packets, final) ->
    at_rest final = true
    /\ exists d, d <= length buffer /\ final = skipn d buffer
                 /\ 37 * length packets <= d.
Proof.
  induction fuel as [|fuel IH]; intros buffer packets final H; [discriminate|].
  cbn [run_loop] in H.
  destruct (Lsl.parse_step buffer) as [b'|b' o] eqn:E.
  - injection H as <- <-. destruct (lsl_step_break _ _ E) as [Hr (d & Hd & ->)].
    split; [exact Hr|]. exists d. cbn [length]. repeat split; lia.
  - destruct (run_loop Lsl.parse_step fuel b') as [[ps f]|] eqn:Er;
      [|discriminate].
    injection H as <- <-.
    destruct (lsl_step_continue _ _ _ E) as (d1 & Hd1 & -> & Ho).
    destruct (IH _ _ _ Er) as [Hr (d2 & Hd2 & -> & Hps)].
    split; [exact Hr|]. rewrite length_skipn in Hd2.
    exists (d2 + d1). rewrite skipn_skipn, length_app.
    repeat split; lia.
Qed.

(** X5.  When the parse loop of [cerelog_lsl.py] (the same loop runs in the
    WiFi bridge) has gone through a buffer, what it leaves is the end of
    that buffer, with at least 37 bytes dropped for every packet
    forwarded.  The buffer left holds no start marker and at most one byte,
    or fewer than 37 bytes from its first start marker on; parsing it again
    with nothing added forwards nothing and leaves it as it is. *)
Theorem lsl_parse_leftover (buffer final : bytes) (packets : list bytes) :
  parse_buffer Lsl.parse_step buffer = Some (packets, final) ->
  at_rest final = true
  /\ (exists d, d <= length buffer /\ final = skipn d buffer
                /\ 37 * length packets <= d)
  /\ parse_buffer Lsl.parse_step final = Some ([], final).
Proof.
  intros H. destruct (lsl_run_leftover _ _ _ _ H) as [Hr Hd].
  split; [exact Hr|]. split; [exact Hd|].
  unfold parse_buffer. cbn [run_loop]. now rewrite (lsl_at_rest_break _ Hr).
Qed.

Lemma lsl_parse_leftover_witness :
  at_rest [xba] = true
  /\ (exists d, d <= length (stray_marker_bytes ++ raw_frame unlucky_payload)
                /\ [xba] = skipn d (stray_marker_bytes ++ raw_frame unlucky_payload)
                /\ 37 * length [slice (stray_marker_bytes
                                       ++ raw_frame unlucky_payload) 1 38] <= d)
  /\ parse_buffer Lsl.parse_step [xba] = Some ([], [xba]).
Proof.
  apply (lsl_parse_leftover (stray_marker_bytes ++ raw_frame unlucky_payload)).
  reflexivity.
Defined.

(** ** What the engine forwards, over any reads *)

Lemma lsl_run_forwards_frames (fuel : nat) :
  forall buffer packets final,
    run_loop Lsl.parse_step fuel buffer = Some (packets, final) ->
    Forall well_framed packets.
Proof.
  induction fuel as [|fuel IH]; intros buffer packets final H; [discriminate|].
  cbn [run_loop] in H.
  destruct (Lsl.parse_step buffer) as [b'|b' o] eqn:E.
  - injection H as <- _. constructor.
  - destruct (run_loop Lsl.parse_step fuel b') as [[ps f]|] eqn:Er;
      [|discriminate].
    injection H as <- _. apply Forall_app. split; [|exact (IH _ _ _ Er)].
    destruct o as [p|]; [|constructor].
    constructor; [|constructor]. exact (lsl_step_forwards_valid _ _ _ E).
Qed.

(** X6.  Whatever bytes [cerelog_lsl.py] reads, in whatever pieces and
    from whatever buffer it starts, every packet it forwards has 37 bytes,
    begins with the start marker, ends with the end marker and carries the
    checksum of its payload. *)
Theorem lsl_feed_all_forwards_frames (reads : list bytes) :
  forall (buffer final : bytes) (packets : list bytes),
    Lsl.feed_all buffer reads = Some (packets, final) ->
    Forall well_framed packets.
Proof.
  induction reads as [|read rest IH]; intros buffer final packets H.
  - injection H as <- _. constructor.
  - cbn [Lsl.feed_all] in H.
    destruct (Lsl.feed buffer read) as [[ps b']|] eqn:Ef; [|discriminate].
    destruct (Lsl.feed_all b' rest) as [[ps' f]|] eqn:Er; [|discriminate].
    injection H as <- _. apply Forall_app. split; [|exact (IH _ _ _ Er)].
    destruct read as [|x read].
    + injection Ef as <- _. constructor.
    + exact (lsl_run_forwards_frames _ _ _ _ Ef).
Qed.

Lemma lsl_feed_all_forwards_frames_witness :
  Forall well_framed
    [slice (stray_marker_bytes ++ raw_frame unlucky_payload) 1 38].
Proof.
  apply (lsl_feed_all_forwards_frames
           [stray_marker_bytes; raw_frame unlucky_payload] [] [xba]).
  reflexivity.
Defined.

(** ** Frames sent back to back *)

Section BackToBack.

Variable step : bytes -> loop_ctl.

(** A pass on a buffer that starts with a whole device frame forwards the
    frame; a pass on a frame that is not complete yet waits. *)
Hypothesis step_frame :
  forall P rest, length P = 32 ->
    step (raw_frame P ++ rest) = Continue rest (Some (raw_frame P)).
Hypothesis step_partial :
  forall P X l, length P = 32 -> raw_frame P = X ++ l -> l <> [] ->
    step X = Break X.

Lemma run_frames (fuel : nat) :
  forall (Ps : list bytes) (X unread : bytes),
    Forall (fun P => length P = 32) Ps ->
    X ++ unread = concat (map raw_frame Ps) ->
    length X < fuel ->
    exists Ps1 Ps2 X',
      Ps = Ps1 ++ Ps2
      /\ run_loop step fuel X = Some (map raw_frame Ps1, X')
      /\ X' ++ unread = concat (map raw_frame Ps2)
      /\ length X' < 37.
Proof.
  induction fuel as [|fuel IH]; intros Ps X unread HPs Hcat Hfuel; [lia|].
  assert (Hwait : forall P l, length P = 32 -> raw_frame P = X ++ l ->
            l <> [] ->
            exists Ps1 Ps2 X',
              Ps = Ps1 ++ Ps2
              /\ run_loop step (S fuel) X = Some (map raw_frame Ps1, X')
              /\ X' ++ unread = concat (map raw_frame Ps2)
              /\ length X' < 37).
  { intros P l HP HX Hl. exists [], Ps, X. cbn [run_loop].
    rewrite (step_partial P X l HP HX Hl).
    repeat split; [exact Hcat|].
    apply (f_equal (@length byte)) in HX.
    rewrite (raw_frame_length P HP), length_app in HX.
    destruct l; [congruence | cbn [length] in HX; lia]. }
  destruct Ps as [|P Ps].
  - cbn [map concat] in Hcat. apply app_eq_nil in Hcat as [-> ->].
    apply (Hwait (repeat x00 32) (raw_frame (repeat x00 32)));
      [reflexivity | reflexivity | discriminate].
  - pose proof (Forall_inv HPs) as HP. pose proof (Forall_inv_tail HPs) as HPs'.
    cbn [map concat] in Hcat.
    assert (Hgo : forall l, X = raw_frame P ++ l ->
              concat (map raw_frame Ps) = l ++ unread ->
              exists Ps1 Ps2 X',
                P :: Ps = Ps1 ++ Ps2
                /\ run_loop step (S fuel) X = Some (map raw_frame Ps1, X')
                /\ X' ++ unread = concat (map raw_frame Ps2)
                /\ length X' < 37).
    { intros l HX Hrest. subst X. cbn [run_loop].
      rewrite (step_frame P l HP).
      destruct (IH Ps l unread HPs' (eq_sym Hrest))
        as (Ps1 & Ps2 & X' & -> & Hrun & Hleft & Hlen).
      { rewrite length_app, (raw_frame_length P HP) in Hfuel. lia. }
      exists (P :: Ps1), Ps2, X'. rewrite Hrun.
      repeat split; [exact Hleft | exact Hlen]. }
    destruct (app_eq_app _ _ _ _ Hcat) as [l [[HX Hrest]|[HF Hun]]].
    + exact (Hgo l HX Hrest).
    + destruct l as [|x l].
      * rewrite app_nil_r in HF. cbn [app] in Hun.
        apply (Hgo []); [now rewrite app_nil_r | now rewrite Hun].
      * apply (Hwait P (x :: l) HP HF). discriminate.
Qed.

End BackToBack.

Lemma lsl_step_frame (P rest : bytes) :
  length P = 32 ->
  Lsl.parse_step (raw_frame P ++ rest) = Continue rest (Some (raw_frame P)).
Proof.
  intros HP. pose proof (raw_frame_length P HP) as HL.
  assert (Hf : find (raw_frame P ++ rest) Lsl.start_marker = Some 0).
  { rewrite raw_frame_bytes. reflexivity. }
  rewrite (lsl_step_found _ 0 Hf) by (rewrite length_app; lia).
  pose proof (slice_app_mid [] (raw_frame P) rest) as E.
  cbn [app length Nat.add] in E. rewrite HL in E.
  cbn [Nat.add]. rewrite E, (raw_frame_valid P HP).
  rewrite <- HL, skipn_app, skipn_all, Nat.sub_diag. reflexivity.
Qed.

Lemma frame_prefix_at_rest (P X l : bytes) :
  length P = 32 -> raw_frame P = X ++ l -> l <> [] -> at_rest X = true.
Proof.
  intros HP HX Hl. unfold at_rest.
  assert (Hlen : length X < 37).
  { apply (f_equal (@length byte)) in HX.
    rewrite (raw_frame_length P HP), length_app in HX.
    destruct l; [congruence | cbn [length] in HX; lia]. }
  destruct X as [|x0 [|x1 X]].
  - reflexivity.
  - rewrite find_short by (cbn [length]; lia). reflexivity.
  - rewrite raw_frame_bytes in HX. cbn [app] in HX.
    injection HX as <- <- _.
    assert (Hf : find (xab :: xcd :: X) Lsl.start_marker = Some 0)
      by reflexivity.
    rewrite Hf. now apply Nat.ltb_lt.
Qed.

Lemma lsl_step_partial (P X l : bytes) :
  length P = 32 -> raw_frame P = X ++ l -> l <> [] ->
  Lsl.parse_step X = Break X.
Proof.
  intros HP HX Hl. apply lsl_at_rest_break.
  exact (frame_prefix_at_rest P X l HP HX Hl).
Qed.

Lemma lsl_feed_all_frames (reads : list bytes) :
  forall (Ps : list bytes) (B : bytes),
    Forall (fun P => length P = 32) Ps ->
    B ++ concat reads = concat (map raw_frame Ps) ->
    length B < 37 ->
    Lsl.feed_all B reads = Some (map raw_frame Ps, []).
Proof.
  induction reads as [|read rest IH]; intros Ps B HPs Hcat HB.
  - cbn [concat] in Hcat. rewrite app_nil_r in Hcat.
    destruct Ps as [|P Ps].
    + cbn in Hcat. subst B. reflexivity.
    + exfalso. apply (f_equal (@length byte)) in Hcat.
      cbn [map concat] in Hcat.
      rewrite length_app, (raw_frame_length P (Forall_inv HPs)) in Hcat. lia.
  - destruct read as [|x read].
    + cbn [Lsl.feed_all Lsl.feed]. cbn [concat app] in Hcat.
      now rewrite (IH Ps B HPs Hcat HB).
    + cbn [concat] in Hcat. rewrite app_assoc in Hcat.
      cbn [Lsl.feed_all]. rewrite lsl_feed_nonempty by discriminate.
      destruct (run_frames Lsl.parse_step lsl_step_frame lsl_step_partial
                  (S (length (B ++ x :: read))) Ps (B ++ x :: read)
                  (concat rest) HPs Hcat (Nat.lt_succ_diag_r _))
        as (Ps1 & Ps2 & X' & -> & Hrun & Hleft & Hlen).
      unfold parse_buffer. rewrite Hrun.
      apply Forall_app in HPs as [_ HPs2].
      rewrite (IH Ps2 X' HPs2 Hleft Hlen), map_app. reflexivity.
Qed.

(** X7.  Device frames sent back to back, with any 32-byte payloads, and
    read by [cerelog_lsl.py] into an empty buffer in any number of reads of
    any sizes, are forwarded one for one and in order, and the buffer ends
    empty. *)
Theorem lsl_frames_back_to_back (Ps : list bytes) (reads : list bytes) :
  Forall (fun P => length P = 32) Ps ->
  concat reads = concat (map raw_frame Ps) ->
  Lsl.feed_all [] reads = Some (map raw_frame Ps, []).
Proof.
  intros HPs Hcat. apply lsl_feed_all_frames; cbn [app length];
    [exact HPs | exact Hcat | lia].
Qed.

Lemma lsl_frames_back_to_back_witness :
  Lsl.feed_all []
    [firstn 30 (raw_frame marker_payload);
     skipn 30 (raw_frame marker_payload) ++ firstn 1 (raw_frame unlucky_payload);
     [];
     skipn 1 (raw_frame unlucky_payload)]
  = Some (map raw_frame [marker_payload; unlucky_payload], []).
Proof.
  apply (lsl_frames_back_to_back [marker_payload; unlucky_payload]);
    [repeat constructor | reflexivity].
Defined.

(** ** The stream loop of the virtual dongle *)

Lemma dongle_at_rest_break (b : bytes) :
  at_rest b = true -> Dongle.parse_step b = Break b.
Proof.
  unfold at_rest, Dongle.parse_step.
  change Dongle.start_marker with Lsl.start_marker.
  change Dongle.RAW_SIZE with 37.
  destruct (find b Lsl.start_marker) as [i|]; intros H.
  - now rewrite H.
  - apply Nat.leb_le in H. rewrite slice_last_short by exact H.
    now destruct (0 <? length b).
Qed.

Lemma dongle_step_break (b b' : bytes) :
  Dongle.parse_step b = Break b' -> at_rest b' = true.
Proof.
  unfold Dongle.parse_step.
  change Dongle.start_marker with Lsl.start_marker.
  change Dongle.RAW_SIZE with 37.
  destruct (find b Lsl.start_marker) as [i|] eqn:Hf.
  - destruct (length b <? i + 37) eqn:Hlt.
    + intros H. injection H as <-. unfold at_rest. now rewrite Hf.
    + destruct (endswith _ _); discriminate.
  - destruct (0 <? length b) eqn:Hpos; intros H; injection H as <-.
    + apply at_rest_slice_last.
    + apply Nat.ltb_ge in Hpos. destruct b; [reflexivity | cbn in Hpos; lia].
Qed.

Lemma dongle_run_leftover (fuel : nat) :
  forall buffer packets final,
    run_loop Dongle.parse_step fuel buffer = Some (packets, final) ->
    at_rest final = true.
Proof.
  induction fuel as [|fuel IH]; intros buffer packets final H; [discriminate|].
  cbn [run_loop] in H.
  destruct (Dongle.parse_step buffer) as [b'|b' o] eqn:E.
  - injection H as _ <-. exact (dongle_step_break _ _ E).
  - destruct (run_loop Dongle.parse_step fuel b') as [[ps f]|] eqn:Er;
      [|discriminate].
    injection H as _ <-. exact (IH _ _ _ Er).
Qed.

(** X8.  The dongle parses its buffer on every turn of the stream loop,
    also when nothing was read.  After any round, a round that reads
    nothing changes neither the buffer nor the counters and writes no
    frame, whatever [streaming_enabled] is. *)
Theorem dongle_idle_round (e e' : bool) (buffer read buffer' : bytes)
  (s s' : Dongle.sink) :
  Dongle.stream_round e buffer s read = Some (buffer', s') ->
  Dongle.stream_round e' buffer' s' [] = Some (buffer', s').
Proof.
  unfold Dongle.stream_round. intros H.
  destruct (parse_buffer Dongle.parse_step (buffer ++ read))
    as [[ps b1]|] eqn:Ep; [|discriminate].
  destruct (Dongle.on_packets _ s _) as [s1|]; [|discriminate].
  injection H as <- <-.
  pose proof (dongle_run_leftover _ _ _ _ Ep) as Hr.
  rewrite app_nil_r. unfold parse_buffer. cbn [run_loop].
  rewrite (dongle_at_rest_break _ Hr). reflexivity.
Qed.

Lemma dongle_idle_round_witness :
  Dongle.stream_round false [xcd] {| Dongle.packet_counter := 1;
                                     Dongle.sample_index := 0;
                                     Dongle.written := [] |} []
  = Some ([xcd], {| Dongle.packet_counter := 1;
                    Dongle.sample_index := 0;
                    Dongle.written := [] |}).
Proof.
  apply (dongle_idle_round true false [] (raw_frame marker_payload ++ [x00; xcd])
           [xcd] Dongle.sink_init).
  reflexivity.
Defined.

Lemma dongle_step_frame (P rest : bytes) :
  length P = 32 ->
  Dongle.parse_step (raw_frame P ++ rest) = Continue rest (Some (raw_frame P)).
Proof.
  intros HP. pose proof (raw_frame_length P HP) as HL.
  unfold Dongle.parse_step.
  assert (Hf : find (raw_frame P ++ rest) Dongle.start_marker = Some 0).
  { rewrite raw_frame_bytes. reflexivity. }
  rewrite Hf. change Dongle.RAW_SIZE with 37. change (0 + 37) with 37.
  destruct (Nat.ltb_spec (length (raw_frame P ++ rest)) 37) as [Hlt|_];
    [rewrite length_app in Hlt; lia|].
  pose proof (slice_app_mid [] (raw_frame P) rest) as E.
  cbn [app length Nat.add] in E. rewrite HL in E. rewrite E.
  change Dongle.end_marker with Lsl.end_marker.
  rewrite raw_frame_endswith. unfold slice_from.
  rewrite <- HL, skipn_app, skipn_all, Nat.sub_diag. reflexivity.
Qed.

Lemma dongle_step_partial (P X l : bytes) :
  length P = 32 -> raw_frame P = X ++ l -> l <> [] ->
  Dongle.parse_step X = Break X.
Proof.
  intros HP HX Hl. apply dongle_at_rest_break.
  exact (frame_prefix_at_rest P X l HP HX Hl).
Qed.

Lemma dongle_rounds_frames (reads : list bytes) :
  forall (Ps : list bytes) (B : bytes) (s : Dongle.sink),
    Forall (fun P => length P = 32) Ps ->
    B ++ concat reads = concat (map raw_frame Ps) ->
    length B < 37 ->
    Dongle.stream_rounds B s (map (fun r => (true, r)) reads)
    = match Dongle.on_packets Dongle.DOWNSAMPLE_RATIO s
              (map (fun p => (true, p)) (map raw_frame Ps)) with
      | Some s' => Some ([], s')
      | None => None
      end.
Proof.
  induction reads as [|read rest IH]; intros Ps B s HPs Hcat HB.
  - cbn [concat] in Hcat. rewrite app_nil_r in Hcat.
    destruct Ps as [|P Ps].
    + cbn in Hcat. subst B. reflexivity.
    + exfalso. apply (f_equal (@length byte)) in Hcat.
      cbn [map concat] in Hcat.
      rewrite length_app, (raw_frame_length P (Forall_inv HPs)) in Hcat. lia.
  - cbn [concat] in Hcat. rewrite app_assoc in Hcat.
    cbn [map Dongle.stream_rounds]. unfold Dongle.stream_round.
    destruct (run_frames Dongle.parse_step dongle_step_frame dongle_step_partial
                (S (length (B ++ read))) Ps (B ++ read)
                (concat rest) HPs Hcat (Nat.lt_succ_diag_r _))
      as (Ps1 & Ps2 & X' & -> & Hrun & Hleft & Hlen).
    unfold parse_buffer. rewrite Hrun.
    rewrite !map_app, on_packets_app.
    destruct (Dongle.on_packets Dongle.DOWNSAMPLE_RATIO s
                (map (fun p => (true, p)) (map raw_frame Ps1))) as [s1|];
      [|reflexivity].
    apply Forall_app in HPs as [_ HPs2].
    exact (IH Ps2 X' s1 HPs2 Hleft Hlen).
Qed.

(** X9.  Device frames sent back to back and read by the dongle in any
    number of reads of any sizes, with streaming enabled throughout and
    starting from an empty buffer and zero counters: every frame is
    counted, every second one is written out as a 33-byte frame (the
    second, the fourth, ...), with sample indices 0, 1, 2, ... modulo 256,
    and the buffer ends empty. *)
Theorem dongle_frames_end_to_end (Ps : list bytes) (reads : list bytes) :
  Forall (fun P => length P = 32) Ps ->
  concat reads = concat (map raw_frame Ps) ->
  exists s,
    Dongle.stream_rounds [] Dongle.sink_init (map (fun r => (true, r)) reads)
    = Some ([], s)
    /\ Dongle.packet_counter s = Z.of_nat (length Ps)
    /\ Dongle.written s = frames_of 2 (map raw_frame Ps).
Proof.
  intros HPs Hcat.
  rewrite (dongle_rounds_frames reads Ps [] Dongle.sink_init HPs Hcat)
    by (cbn [length]; lia).
  destruct (on_packets_streaming 2 (map raw_frame Ps) ltac:(lia))
    as (s & Hrun & Hc & _ & Hw).
  change (Z.of_nat 2) with Dongle.DOWNSAMPLE_RATIO in Hrun.
  rewrite Hrun. exists s. rewrite length_map in Hc.
  repeat split; [exact Hc | exact Hw].
Qed.

Lemma dongle_frames_end_to_end_witness :
  exists s,
    Dongle.stream_rounds [] Dongle.sink_init
      (map (fun r => (true, r))
         [firstn 30 (raw_frame marker_payload);
          skipn 30 (raw_frame marker_payload) ++ raw_frame unlucky_payload])
    = Some ([], s)
    /\ Dongle.packet_counter s = Z.of_nat (length [marker_payload; unlucky_payload])
    /\ Dongle.written s
       = frames_of 2 (map raw_frame [marker_payload; unlucky_payload]).
Proof.
  apply (dongle_frames_end_to_end [marker_payload; unlucky_payload]);
    [repeat constructor | reflexivity].
Defined.

(** ** The frame writer of the virtual dongle, in general *)

(** X10.  For a ratio other than zero and a sample index in range, a run of
    packets, each handled with [streaming_enabled] set or not, never raises.
    Every packet is counted, whether streaming is enabled or not.  Frames
    are only added to what was written, one for each packet that arrives
    with streaming enabled when the counter reaches a multiple of the ratio;
    the [j]-th of them carries the sample index advanced by [j] modulo 256
    and bytes 10..33 of its packet. *)
Theorem dongle_on_packets_general (N : Z) (packets : list (bool * bytes)) :
  forall s : Dongle.sink,
    N <> 0%Z ->
    (0 <= Dongle.sample_index s < 256)%Z ->
    exists s' new,
      Dongle.on_packets N s packets = Some s'
      /\ Dongle.packet_counter s'
         = (Dongle.packet_counter s + Z.of_nat (length packets))%Z
      /\ Dongle.written s' = Dongle.written s ++ new
      /\ length new = length (emitting N (Dongle.packet_counter s) packets)
      /\ Dongle.sample_index s'
         = ((Dongle.sample_index s + Z.of_nat (length new)) mod 256)%Z
      /\ forall j, j < length new ->
           nth j new []
           = cyton_frame ((Dongle.sample_index s + Z.of_nat j) mod 256)
               (slice (nth j (emitting N (Dongle.packet_counter s) packets) [])
                      10 34).
Proof.
  induction packets as [|[e p] packets IH]; intros s HN Hidx.
  - exists s, []. cbn [Dongle.on_packets length emitting Z.of_nat].
    rewrite app_nil_r, Z.add_0_r, Z.add_0_r, Z.mod_small by lia.
    repeat split. intros j Hj. lia.
  - cbn [Dongle.on_packets emitting]. unfold Dongle.on_packet.
    destruct (Z.eqb_spec N 0) as [|_]; [contradiction|].
    set (c := Dongle.packet_counter s) in *.
    set (i := Dongle.sample_index s) in *.
    destruct e; [destruct ((c + 1) mod N =? 0)%Z|]; cbn [andb app].
    + rewrite (out_pkt_frame i p Hidx).
      destruct (IH {| Dongle.packet_counter := (c + 1)%Z;
                      Dongle.sample_index := ((i + 1) mod 256)%Z;
                      Dongle.written := Dongle.written s
                                        ++ [cyton_frame i (slice p 10 34)] |}
                  HN)
        as (s' & new & Hrun & Hc & Hw & Hlen & Hi & Hnth).
      { cbn [Dongle.sample_index]. apply Z.mod_pos_bound. lia. }
      cbn [Dongle.packet_counter Dongle.sample_index Dongle.written] in *.
      exists s', (cyton_frame i (slice p 10 34) :: new).
      rewrite Hrun, Hc, Hw, Hi, <- app_assoc. cbn [length app].
      repeat split; try lia.
      * rewrite Z.add_mod_idemp_l by lia. f_equal. lia.
      * intros [|j] Hj; cbn [nth].
        -- now rewrite Z.add_0_r, Z.mod_small by lia.
        -- rewrite Hnth by lia. rewrite Z.add_mod_idemp_l by lia.
           do 2 f_equal. lia.
    + destruct (IH {| Dongle.packet_counter := (c + 1)%Z;
                      Dongle.sample_index := i;
                      Dongle.written := Dongle.written s |} HN Hidx)
        as (s' & new & Hrun & Hc & Hw & Hlen & Hi & Hnth).
      cbn [Dongle.packet_counter Dongle.sample_index Dongle.written] in *.
      exists s', new. rewrite Hrun, Hc. cbn [length].
      repeat split; try assumption; lia.
    + destruct (IH {| Dongle.packet_counter := (c + 1)%Z;
                      Dongle.sample_index := i;
                      Dongle.written := Dongle.written s |} HN Hidx)
        as (s' & new & Hrun & Hc & Hw & Hlen & Hi & Hnth).
      cbn [Dongle.packet_counter Dongle.sample_index Dongle.written] in *.
      exists s', new. rewrite Hrun, Hc. cbn [length].
      repeat split; try assumption; lia.
Qed.

Lemma dongle_on_packets_general_witness :
  exists s' new,
    Dongle.on_packets 2 Dongle.sink_init
      [(false, raw_frame marker_payload); (true, raw_frame unlucky_payload);
       (true, raw_frame marker_payload)] = Some s'
    /\ Dongle.packet_counter s'
       = (Dongle.packet_counter Dongle.sink_init + Z.of_nat 3)%Z
    /\ Dongle.written s' = Dongle.written Dongle.sink_init ++ new
    /\ length new
       = length (emitting 2 (Dongle.packet_counter Dongle.sink_init)
                   [(false, raw_frame marker_payload);
                    (true, raw_frame unlucky_payload);
                    (true, raw_frame marker_payload)])
    /\ Dongle.sample_index s'
       = ((Dongle.sample_index Dongle.sink_init + Z.of_nat (length new))
            mod 256)%Z
    /\ forall j, j < length new ->
         nth j new []
         = cyton_frame ((Dongle.sample_index Dongle.sink_init + Z.of_nat j)
                          mod 256)
             (slice (nth j (emitting 2 (Dongle.packet_counter Dongle.sink_init)
                              [(false, raw_frame marker_payload);
                               (true, raw_frame unlucky_payload);
                               (true, raw_frame marker_payload)]) [])
                    10 34).
Proof.
  apply (dongle_on_packets_general 2
           [(false, raw_frame marker_payload); (true, raw_frame unlucky_payload);
            (true, raw_frame marker_payload)] Dongle.sink_init);
    [discriminate | cbn; lia].
Defined.

(** X11.  The 33 bytes the dongle builds for a 37-byte packet and a sample
    index in range are 0xA0, the index, 24 bytes, six zeros and 0xC0, and
    the 24 bytes read three by three as big-endian two's-complement integers
    are the eight channel values the decoder of the other two scripts finds
    in the same packet. *)
Theorem dongle_frame_carries_channels (index : Z) (packet : bytes) :
  length packet = 37 ->
  (0 <= index < 256)%Z ->
  exists f,
    Dongle.out_pkt index packet = Some f
    /\ length f = 33
    /\ nth 0 f x00 = xa0
    /\ byte_val (nth 1 f x00) = index
    /\ (forall ch, ch < 8 ->
          be24_signed (nth (2 + 3 * ch) f x00) (nth (3 + 3 * ch) f x00)
                      (nth (4 + 3 * ch) f x00)
          = nth ch (decode_channels packet) 0%Z)
    /\ (forall k, 26 <= k < 32 -> nth k f x00 = x00)
    /\ nth 32 f x00 = xc0.
Proof.
  intros H Hi. rewrite (out_pkt_frame index packet Hi).
  eexists. split; [reflexivity|].
  explode_packet packet H.
  unfold decode_channels, channel_value, slice, cyton_frame,
    ADS1299_NUM_CHANNELS, ADS1299_NUM_STATUS_BYTES, ADS1299_BYTES_PER_CHANNEL.
  cbn [seq map firstn skipn Nat.sub Nat.add Nat.mul app repeat].
  rewrite !from_bytes_signed_3.
  split; [reflexivity|]. split; [reflexivity|]. split.
  { cbn [nth]. rewrite byte_val_of_Z. apply Z.mod_small. exact Hi. }
  split.
  { intros ch Hch. do 8 (destruct ch as [|ch]; [reflexivity|]). lia. }
  split; [|reflexivity].
  intros k [Hk1 Hk2].
  do 26 (destruct k as [|k]; [lia|]).
  do 6 (destruct k as [|k]; [reflexivity|]). lia.
Qed.

Lemma dongle_frame_carries_channels_witness :
  exists f,
    Dongle.out_pkt 255 (raw_frame unlucky_payload) = Some f
    /\ length f = 33
    /\ nth 0 f x00 = xa0
    /\ byte_val (nth 1 f x00) = 255%Z
    /\ (forall ch, ch < 8 ->
          be24_signed (nth (2 + 3 * ch) f x00) (nth (3 + 3 * ch) f x00)
                      (nth (4 + 3 * ch) f x00)
          = nth ch (decode_channels (raw_frame unlucky_payload)) 0%Z)
    /\ (forall k, 26 <= k < 32 -> nth k f x00 = x00)
    /\ nth 32 f x00 = xc0.
Proof.
  apply (dongle_frame_carries_channels 255 (raw_frame unlucky_payload));
    [reflexivity | lia].
Defined.

(** ** Runs of commands and of requests *)

Lemma last_such_cons {A : Type} (f : A -> bool) (x : A) (l : list A) :
  last_such f (x :: l)
  = match last_such f l with
    | Some y => Some y
    | None => if f x then Some x else None
    end.
Proof.
  unfold last_such. cbn [rev].
  induction (rev l) as [|y r IH]; cbn [app List.find].
  - reflexivity.
  - destruct (f y); [reflexivity | exact IH].
Qed.

(** X12.  After any run of command bytes [streaming_enabled] is set exactly
    when the last of the bytes ['v'], ['b'], ['s'] in the run is ['b'], and
    is unchanged when the run holds none of them.  The replies do not depend
    on the flag: one per ['v'] (the identity string) and one per
    acknowledged byte (a comma), in the order of the bytes. *)
Theorem handle_commands_summary (cmd_bytes : bytes) :
  forall streaming_enabled : bool,
    fst (Dongle.handle_commands streaming_enabled cmd_bytes)
    = match last_such is_control cmd_bytes with
      | Some b => Byte.eqb b "b"
      | None => streaming_enabled
      end
    /\ snd (Dongle.handle_commands streaming_enabled cmd_bytes)
       = map (fun b => Dongle.Wrote (if Byte.eqb b "v" then Dongle.ID_STRING
                                     else [","%byte]))
             (filter is_answered cmd_bytes).
Proof.
  induction cmd_bytes as [|b rest IH]; intros se; [split; reflexivity|].
  cbn [Dongle.handle_commands filter]. rewrite last_such_cons.
  rewrite handle_command_cases. unfold is_control, is_answered.
  change (list_byte_of_string Dongle.ACK_CHARS)
    with (list_byte_of_string "xX12345678!@#$%^&*()qwertyuiop").
  destruct (Byte.eqb b "v") eqn:Ev.
  { cbv beta iota. destruct (IH false) as [H1 H2].
    destruct (Dongle.handle_commands false rest) as [s2 ev2].
    cbn [fst snd orb map app] in *. rewrite H1, H2, Ev. split; [|reflexivity].
    apply Byte.byte_dec_bl in Ev. subst b.
    now destruct (last_such _ rest). }
  destruct (Byte.eqb b "b") eqn:Eb.
  { cbv beta iota. destruct (IH true) as [H1 H2].
    destruct (Dongle.handle_commands true rest) as [s2 ev2].
    cbn [fst snd orb app] in *. rewrite H1, H2.
    apply Byte.byte_dec_bl in Eb. subst b.
    split; [now destruct (last_such _ rest) | reflexivity]. }
  destruct (Byte.eqb b "s") eqn:Es.
  { cbv beta iota. destruct (IH false) as [H1 H2].
    destruct (Dongle.handle_commands false rest) as [s2 ev2].
    cbn [fst snd orb app] in *. rewrite H1, H2.
    apply Byte.byte_dec_bl in Es. subst b.
    split; [now destruct (last_such _ rest) | reflexivity]. }
  destruct (IH se) as [H1 H2].
  destruct (existsb (Byte.eqb b) _); cbv beta iota;
    destruct (Dongle.handle_commands se rest) as [s2 ev2];
    cbn [fst snd orb app map] in *; rewrite H1, H2, ?Ev;
    (split; [now destruct (last_such _ rest) | reflexivity]).
Qed.

Lemma do_GET_cases (a : bool) (path : string) :
  fst (Wifi.do_GET a path)
  = (if is_toggle path then String.eqb path "/stream/start" else a)
  /\ Wifi.status (snd (Wifi.do_GET a path))
     = (if is_known path then 200 else 404)%Z.
Proof.
  unfold Wifi.do_GET, is_known, is_toggle.
  destruct (String.eqb path "/board") eqn:Eb.
  - apply String.eqb_eq in Eb. subst path. split; reflexivity.
  - destruct (String.eqb path "/stream/start"); [split; reflexivity|].
    destruct (String.eqb path "/stream/stop"); split; reflexivity.
Qed.

(** X13.  After any run of GET requests [streaming_active] is set exactly
    when the last request for [/stream/start] or [/stream/stop] in the run
    was for [/stream/start], and is unchanged when there was none; the
    paths are compared exactly.  Every request for [/board],
    [/stream/start] or [/stream/stop] is answered with 200 and every other
    one with 404. *)
Theorem do_GETs_summary (paths : list string) :
  forall streaming_active : bool,
    fst (Wifi.do_GETs streaming_active paths)
    = match last_such is_toggle paths with
      | Some p => String.eqb p "/stream/start"
      | None => streaming_active
      end
    /\ map Wifi.status (snd (Wifi.do_GETs streaming_active paths))
       = map (fun p => if is_known p then 200 else 404)%Z paths.
Proof.
  induction paths as [|p rest IH]; intros a; [split; reflexivity|].
  cbn [Wifi.do_GETs]. rewrite last_such_cons.
  destruct (do_GET_cases a p) as [Hf Hs].
  destruct (Wifi.do_GET a p) as [a1 r]. cbn [fst snd] in Hf, Hs.
  destruct (IH a1) as [H1 H2].
  destruct (Wifi.do_GETs a1 rest) as [a2 rs]. cbn [fst snd map] in *.
  rewrite H1, H2, Hs, Hf. split; [|reflexivity].
  destruct (last_such is_toggle rest); [reflexivity|].
  now destruct (is_toggle p).
Qed.

(** ** The TCP streamer of the WiFi bridge *)

Section StreamerFacts.
Context {A : Type}.

Lemma queue_push_room (q : list A) (row : A) :
  length q < 500 -> Wifi.queue_push q row = q ++ [row].
Proof.
  intros H. unfold Wifi.queue_push. rewrite length_app. cbn [length].
  destruct (Nat.ltb_spec 500 (length q + 1)); [lia | reflexivity].
Qed.

Lemma take_turns_snoc (w : @Wifi.streamer A) (ts : list Wifi.turn)
  (t : Wifi.turn) :
  Wifi.take_turns w (ts ++ [t]) = Wifi.take_turn (Wifi.take_turns w ts) t.
Proof. unfold Wifi.take_turns. now rewrite fold_left_app. Qed.

(** One pass: either fewer than ten rows are pending and nothing is sent,
    or the first ten pending rows are sent with the next count. *)
Lemma tcp_pass_cases (w : @Wifi.streamer A) :
  Wifi.data_queue (Wifi.tcp_pass w) = []
  /\ ((Wifi.sent (Wifi.tcp_pass w) = Wifi.sent w
       /\ Wifi.packet_count (Wifi.tcp_pass w) = Wifi.packet_count w
       /\ Wifi.chunk_buffer (Wifi.tcp_pass w)
          = Wifi.chunk_buffer w ++ Wifi.data_queue w)
      \/ (exists m,
            Wifi.sent (Wifi.tcp_pass w) = Wifi.sent w ++ [m]
            /\ length (Wifi.chunk m) = 10
            /\ Wifi.count m = (Wifi.packet_count w + 1)%Z
            /\ Wifi.packet_count (Wifi.tcp_pass w)
               = (Wifi.packet_count w + 1)%Z
            /\ Wifi.chunk m ++ Wifi.chunk_buffer (Wifi.tcp_pass w)
               = Wifi.chunk_buffer w ++ Wifi.data_queue w)).
Proof.
  unfold Wifi.tcp_pass. rewrite queue_drain_empties.
  set (pending := Wifi.chunk_buffer w ++ Wifi.data_queue w).
  destruct (Nat.leb_spec 10 (length pending)) as [Hge|Hlt].
  - split; [reflexivity|]. right.
    exists {| Wifi.chunk := firstn 10 pending;
              Wifi.count := (Wifi.packet_count w + 1)%Z |}.
    cbn [Wifi.sent Wifi.packet_count Wifi.chunk_buffer Wifi.chunk Wifi.count].
    split; [reflexivity|]. split; [rewrite length_firstn; lia|].
    split; [reflexivity|]. split; [reflexivity|]. apply firstn_skipn.
  - split; [reflexivity|]. left. repeat split.
Qed.

Lemma queued_rows_snoc (ts : list (@Wifi.turn A)) (t : Wifi.turn) :
  queued_rows (ts ++ [t])
  = queued_rows ts
    ++ match t with Wifi.Queued row => [row] | Wifi.Pass => [] end.
Proof.
  unfold queued_rows. rewrite flat_map_app. cbn [flat_map].
  now rewrite app_nil_r.
Qed.

Lemma passes_snoc (ts : list (@Wifi.turn A)) (t : Wifi.turn) :
  passes (ts ++ [t])
  = passes ts + match t with Wifi.Queued _ => 0 | Wifi.Pass => 1 end.
Proof.
  unfold passes. rewrite filter_app, length_app. now destruct t.
Qed.

Lemma take_turns_invariant (ts : list (@Wifi.turn A)) :
  forall w : Wifi.streamer,
    length (Wifi.data_queue w) + length (queued_rows ts) <= 500 ->
    exists new,
      Wifi.sent (Wifi.take_turns w ts) = Wifi.sent w ++ new
      /\ Forall (fun m => length (Wifi.chunk m) = 10) new
      /\ map Wifi.count new
         = map (fun k => (Wifi.packet_count w + 1 + Z.of_nat k)%Z)
               (seq 0 (length new))
      /\ Wifi.packet_count (Wifi.take_turns w ts)
         = (Wifi.packet_count w + Z.of_nat (length new))%Z
      /\ concat (map Wifi.chunk new)
         ++ Wifi.chunk_buffer (Wifi.take_turns w ts)
         ++ Wifi.data_queue (Wifi.take_turns w ts)
         = Wifi.chunk_buffer w ++ Wifi.data_queue w ++ queued_rows ts
      /\ length new <= passes ts
      /\ length (Wifi.data_queue (Wifi.take_turns w ts))
         <= length (Wifi.data_queue w) + length (queued_rows ts).
Proof.
  induction ts as [|t ts IH] using rev_ind; intros w Hroom.
  - exists []. cbn. rewrite !app_nil_r, Z.add_0_r. repeat split; try lia.
    constructor.
  - rewrite queued_rows_snoc, passes_snoc, take_turns_snoc.
    rewrite queued_rows_snoc, length_app in Hroom.
    destruct (IH w ltac:(lia))
      as (new & Hs & Hten & Hcnt & Hpc & Hcons & Hp & Hq).
    remember (Wifi.take_turns w ts) as w1 eqn:Hw1. clear Hw1 IH.
    destruct t as [row|]; cbn [Wifi.take_turn length] in *.
    + exists new. unfold Wifi.tcp_push.
      cbn [Wifi.sent Wifi.packet_count Wifi.chunk_buffer Wifi.data_queue].
      rewrite queue_push_room by lia. rewrite !length_app. cbn [length].
      split; [exact Hs|]. split; [exact Hten|]. split; [exact Hcnt|].
      split; [exact Hpc|]. split; [|split; lia].
      rewrite !app_assoc. rewrite !app_assoc in Hcons. now rewrite Hcons.
    + destruct (tcp_pass_cases w1)
        as [Hempty [(H1 & H2 & H3)|(m & H1 & H2 & H3 & H4 & H5)]].
      * exists new. rewrite H1, H2, H3, Hempty, !app_nil_r.
        cbn [length]. split; [exact Hs|]. split; [exact Hten|].
        split; [exact Hcnt|]. split; [exact Hpc|]. split; [exact Hcons|].
        split; lia.
      * exists (new ++ [m]). rewrite H1, H4, Hempty, !app_nil_r, Hs, Hpc.
        rewrite length_app. cbn [length].
        split; [now rewrite app_assoc|].
        split; [apply Forall_app; split; [exact Hten | now constructor]|].
        split.
        { rewrite map_app, seq_app, map_app, <- Hcnt. cbn [map seq Nat.add].
          rewrite H3, Hpc. do 2 f_equal. lia. }
        split; [lia|]. split; [|split; lia].
        rewrite map_app, concat_app. cbn [map concat].
        rewrite app_nil_r, <- app_assoc, H5. exact Hcons.
Qed.

End StreamerFacts.

(** X14.  Rows queued by the serial worker and passes of the streamer, in
    any order, from the start of a connection, as long as no more than 500
    rows are queued in all: every message sent holds exactly ten rows, the
    counts of the messages are 1, 2, 3, ..., there is at most one message
    per pass, and the rows sent, followed by what the streamer still
    holds and what is still in the queue, are the rows that were in the
    queue at the start followed by the rows queued since, in order: nothing
    is lost, repeated or reordered. *)
Theorem tcp_streamer_chunks (A : Type) (queue : list A)
  (ts : list (@Wifi.turn A)) :
  length queue + length (queued_rows ts) <= 500 ->
  let w := Wifi.take_turns (Wifi.connected queue) ts in
  Forall (fun m => length (Wifi.chunk m) = 10) (Wifi.sent w)
  /\ map Wifi.count (Wifi.sent w)
     = map (fun k => Z.of_nat (S k)) (seq 0 (length (Wifi.sent w)))
  /\ Wifi.packet_count w = Z.of_nat (length (Wifi.sent w))
  /\ length (Wifi.sent w) <= passes ts
  /\ concat (map Wifi.chunk (Wifi.sent w))
     ++ Wifi.chunk_buffer w ++ Wifi.data_queue w
     = queue ++ queued_rows ts.
Proof.
  intros Hroom w.
  destruct (take_turns_invariant ts (Wifi.connected queue) Hroom)
    as (new & Hs & Hten & Hcnt & Hpc & Hcons & Hp & _).
  fold w in Hs, Hpc, Hcons. cbn [Wifi.connected Wifi.sent Wifi.packet_count
    Wifi.chunk_buffer Wifi.data_queue app] in *.
  rewrite Hs. split; [exact Hten|]. split.
  { rewrite Hcnt. apply map_ext. intros k. lia. }
  split; [rewrite Hpc; lia|]. split; [exact Hp | exact Hcons].
Qed.

Lemma tcp_streamer_chunks_witness :
  let w := Wifi.take_turns (Wifi.connected (seq 0 12))
             [Wifi.Pass; Wifi.Queued 12; Wifi.Pass; Wifi.Queued 13] in
  Forall (fun m => length (Wifi.chunk m) = 10) (Wifi.sent w)
  /\ map Wifi.count (Wifi.sent w)
     = map (fun k => Z.of_nat (S k)) (seq 0 (length (Wifi.sent w)))
  /\ Wifi.packet_count w = Z.of_nat (length (Wifi.sent w))
  /\ length (Wifi.sent w)
     <= passes [Wifi.Pass; Wifi.Queued 12; Wifi.Pass; Wifi.Queued 13]
  /\ concat (map Wifi.chunk (Wifi.sent w))
     ++ Wifi.chunk_buffer w ++ Wifi.data_queue w
     = seq 0 12
       ++ queued_rows [Wifi.Pass; Wifi.Queued 12; Wifi.Pass; Wifi.Queued 13].
Proof.
  apply (tcp_streamer_chunks nat (seq 0 12)
           [Wifi.Pass; Wifi.Queued 12; Wifi.Pass; Wifi.Queued 13]).
  vm_compute. lia.
Defined.

(** ** The serial worker of the WiFi bridge *)

Lemma rows_from_app (clock : nat -> float) (a b : list bytes) (r : nat) :
  rows_from clock r (a ++ b)
  = rows_from clock r a ++ rows_from clock (r + length a) b.
Proof.
  revert r. induction a as [|p a IH]; intros r; cbn [app rows_from length].
  - now rewrite Nat.add_0_r.
  - rewrite IH. do 3 f_equal. lia.
Qed.

Lemma rows_from_length (clock : nat -> float) (ps : list bytes) (r : nat) :
  length (rows_from clock r ps) = length ps.
Proof.
  revert r. induction ps as [|p ps IH]; intros r; cbn [rows_from length];
    [reflexivity | now rewrite IH].
Qed.

Lemma queue_packets_rows (clock : nat -> float) (packets : list bytes) :
  forall (r : nat) (q : list (list Wifi.number)),
    Wifi.queue_packets clock r q packets
    = (r + length packets, Wifi.queue_push_all q (rows_from clock r packets)).
Proof.
  induction packets as [|p ps IH]; intros r q;
    cbn [Wifi.queue_packets rows_from length].
  - now rewrite Nat.add_0_r.
  - rewrite IH. f_equal. lia.
Qed.

Lemma queue_push_all_bound (A : Type) (q rows : list A) :
  length q <= 500 -> length (Wifi.queue_push_all q rows) <= 500.
Proof.
  intros H. rewrite (queue_push_all_last _ _ H), length_skipn. lia.
Qed.

Lemma wifi_rounds_frames (clock : nat -> float) (reads : list bytes) :
  forall (Ps : list bytes) (B : bytes) (r : nat) (q : list (list Wifi.number)),
    Forall (fun P => length P = 32) Ps ->
    B ++ concat reads = concat (map raw_frame Ps) ->
    length B < 37 ->
    Wifi.serial_rounds clock r B q reads
    = Some ([], r + length Ps,
            Wifi.queue_push_all q (rows_from clock r (map raw_frame Ps))).
Proof.
  induction reads as [|read rest IH]; intros Ps B r q HPs Hcat HB.
  - cbn [concat] in Hcat. rewrite app_nil_r in Hcat.
    destruct Ps as [|P Ps].
    + cbn in Hcat. subst B. cbn. now rewrite Nat.add_0_r.
    + exfalso. apply (f_equal (@length byte)) in Hcat.
      cbn [map concat] in Hcat.
      rewrite length_app, (raw_frame_length P (Forall_inv HPs)) in Hcat. lia.
  - cbn [concat] in Hcat. rewrite app_assoc in Hcat.
    cbn [Wifi.serial_rounds]. unfold Wifi.serial_round.
    destruct (run_frames Wifi.parse_step lsl_step_frame lsl_step_partial
                (S (length (B ++ read))) Ps (B ++ read)
                (concat rest) HPs Hcat (Nat.lt_succ_diag_r _))
      as (Ps1 & Ps2 & X' & -> & Hrun & Hleft & Hlen).
    unfold parse_buffer. rewrite Hrun, queue_packets_rows.
    apply Forall_app in HPs as [_ HPs2].
    rewrite (IH Ps2 X' _ _ HPs2 Hleft Hlen).
    rewrite map_app, rows_from_app, !length_map, length_app.
    unfold Wifi.queue_push_all. rewrite fold_left_app.
    do 3 f_equal. lia.
Qed.

(** X15.  Device frames sent back to back and read by the serial worker of
    the WiFi bridge in any number of reads of any sizes, from an empty
    buffer and an empty queue: the clock is read once per frame, and the
    queue ends with the rows of the frames in order, frame [k] stamped with
    reading [k] of the clock, or with the last 500 of these rows when there
    are more; the buffer ends empty. *)
Theorem wifi_frames_to_queue (clock : nat -> float) (Ps : list bytes)
  (reads : list bytes) :
  Forall (fun P => length P = 32) Ps ->
  concat reads = concat (map raw_frame Ps) ->
  Wifi.serial_rounds clock 0 [] [] reads
  = Some ([], length Ps,
          skipn (length Ps - 500) (rows_from clock 0 (map raw_frame Ps))).
Proof.
  intros HPs Hcat.
  rewrite (wifi_rounds_frames clock reads Ps [] 0 [] HPs Hcat)
    by (cbn [length]; lia).
  rewrite queue_push_all_last by (cbn [length]; lia).
  cbn [app Nat.add]. now rewrite rows_from_length, length_map.
Qed.

Lemma wifi_frames_to_queue_witness :
  Wifi.serial_rounds (fun k => PrimFloat.of_uint63 (Uint63.of_Z (Z.of_nat k)))
    0 [] []
    [firstn 30 (raw_frame marker_payload);
     skipn 30 (raw_frame marker_payload) ++ raw_frame unlucky_payload]
  = Some ([], length [marker_payload; unlucky_payload],
          skipn (length [marker_payload; unlucky_payload] - 500)
            (rows_from (fun k => PrimFloat.of_uint63 (Uint63.of_Z (Z.of_nat k)))
               0 (map raw_frame [marker_payload; unlucky_payload]))).
Proof.
  apply (wifi_frames_to_queue
           (fun k => PrimFloat.of_uint63 (Uint63.of_Z (Z.of_nat k)))
           [marker_payload; unlucky_payload]);
    [repeat constructor | reflexivity].
Defined.

(** ** The stream check of [cerelog_lsl.py] and the WiFi bridge *)



(** ** The reads do not matter *)

Lemma find_first (sub l : bytes) (i : nat) :
  occurs_at l sub i = true ->
  (forall j, j < i -> occurs_at l sub j = false) ->
  find l sub = Some i.
Proof.
  intros Hi Hlt. destruct (find l sub) as [k|] eqn:E.
  - destruct (find_Some _ _ _ E) as [Hk Hk'].
    destruct (Nat.lt_trichotomy k i) as [Hlt'|[->|Hgt]]; [|reflexivity|].
    + rewrite (Hlt _ Hlt') in Hk. discriminate.
    + rewrite (Hk' _ Hgt) in Hi. discriminate.
  - rewrite (find_None _ _ E i) in Hi. discriminate.
Qed.

Lemma startswith_app_long (sub a r : bytes) :
  length sub <= length a -> startswith (a ++ r) sub = startswith a sub.
Proof.
  revert a. induction sub as [|s sub IH]; intros a H; [reflexivity|].
  destruct a as [|x a]; cbn [length] in H; [lia|].
  cbn [app startswith]. rewrite IH by lia. reflexivity.
Qed.

Lemma occurs_at_within (l r : bytes) (i : nat) :
  i + 2 <= length l ->
  occurs_at (l ++ r) Lsl.start_marker i = occurs_at l Lsl.start_marker i.
Proof.
  intros H. unfold occurs_at. rewrite skipn_app.
  replace (i - length l) with 0 by lia. cbn [skipn].
  apply startswith_app_long. rewrite length_skipn, start_marker_bytes.
  cbn [length]. lia.
Qed.

Lemma occurs_at_past (g t : bytes) (k : nat) :
  occurs_at (g ++ t) Lsl.start_marker (length g + k)
  = occurs_at t Lsl.start_marker k.
Proof.
  unfold occurs_at. rewrite skipn_app.
  replace (length g + k - length g) with k by lia.
  now rewrite skipn_all2 by lia.
Qed.

(** A prefix that no start marker begins in does not change what is found
    after it. *)
Lemma find_skip_prefix (G T : bytes) :
  (forall i, i < length G -> occurs_at (G ++ T) Lsl.start_marker i = false) ->
  find (G ++ T) Lsl.start_marker
  = option_map (Nat.add (length G)) (find T Lsl.start_marker).
Proof.
  intros Hno. destruct (find T Lsl.start_marker) as [j|] eqn:E; cbn [option_map].
  - destruct (find_Some _ _ _ E) as [Hj Hmin]. apply find_first.
    + now rewrite occurs_at_past.
    + intros i Hi. destruct (Nat.lt_ge_cases i (length G)) as [Hlt|Hge].
      * now apply Hno.
      * replace i with (length G + (i - length G)) by lia.
        rewrite occurs_at_past. apply Hmin. lia.
  - apply find_absent. intros i.
    destruct (Nat.lt_ge_cases i (length G)) as [Hlt|Hge].
    + now apply Hno.
    + replace i with (length G + (i - length G)) by lia.
      rewrite occurs_at_past. apply (find_None _ _ E).
Qed.

(** A buffer is its pending part after bytes that no start marker begins
    in, whatever is appended later. *)
Lemma pending_decomp (B : bytes) :
  exists G,
    B = G ++ pending B
    /\ (pending B = [] -> G = [])
    /\ forall Y i, i < length G ->
         occurs_at (G ++ pending B ++ Y) Lsl.start_marker i = false.
Proof.
  unfold pending. destruct (find B Lsl.start_marker) as [i0|] eqn:E.
  - destruct (find_Some _ _ _ E) as [Hi0 Hmin].
    pose proof (occurs_at_bound _ _ Hi0) as Hb.
    exists (firstn i0 B). rewrite firstn_skipn. split; [reflexivity|]. split.
    + intros Hnil. apply (f_equal (@length byte)) in Hnil.
      rewrite length_skipn in Hnil. cbn [length] in Hnil. lia.
    + intros Y i Hi. rewrite length_firstn in Hi.
      rewrite app_assoc, firstn_skipn, occurs_at_within by lia.
      apply Hmin. lia.
  - exists (firstn (length B - 1) B). unfold slice_last.
    rewrite firstn_skipn. split; [reflexivity|]. split.
    + intros Hnil. apply (f_equal (@length byte)) in Hnil.
      rewrite length_skipn in Hnil. cbn [length] in Hnil.
      destruct B as [|b B]; [reflexivity | cbn [length] in Hnil; lia].
    + intros Y i Hi. rewrite length_firstn in Hi.
      rewrite app_assoc, firstn_skipn, occurs_at_within by lia.
      apply (find_None _ _ E).
Qed.

Lemma slice_last_app (G T : bytes) :
  T <> [] -> slice_last (G ++ T) = slice_last T.
Proof.
  intros HT. unfold slice_last. rewrite length_app, skipn_app.
  assert (1 <= length T) by (destruct T; [congruence | cbn; lia]).
  rewrite skipn_all2 by lia. cbn [app]. f_equal. lia.
Qed.

Lemma pending_skip_prefix (G T : bytes) :
  (T = [] -> G = []) ->
  (forall i, i < length G -> occurs_at (G ++ T) Lsl.start_marker i = false) ->
  pending (G ++ T) = pending T.
Proof.
  intros HT Hno. unfold pending. rewrite (find_skip_prefix G T Hno).
  destruct (find T Lsl.start_marker) as [j|]; cbn [option_map].
  - rewrite skipn_app. replace (length G + j - length G) with j by lia.
    now rewrite skipn_all2 by lia.
  - destruct T as [|t T]; [now rewrite (HT eq_refl)|].
    apply slice_last_app. discriminate.
Qed.

Lemma pending_idem (X : bytes) : pending (pending X) = pending X.
Proof.
  destruct (pending_decomp X) as (G & EX & NX & OX).
  pose proof (OX []) as O. rewrite app_nil_r in O.
  pose proof (pending_skip_prefix G (pending X) NX O) as Hp.
  rewrite <- EX in Hp. now symmetry.
Qed.

Lemma lsl_parse_unfold (b : bytes) :
  parse_buffer Lsl.parse_step b
  = match Lsl.parse_step b with
    | Break b' => Some ([], b')
    | Continue b' o =>
        match parse_buffer Lsl.parse_step b' with
        | Some (ps, f) => Some (forwarded_list o ++ ps, f)
        | None => None
        end
    end.
Proof.
  unfold parse_buffer at 1. cbn [run_loop].
  destruct (Lsl.parse_step b) as [b'|b' o] eqn:E; [reflexivity|].
  destruct (lsl_parse_total b') as [r Hr]. rewrite Hr.
  apply lsl_step_shrinks in E.
  rewrite (run_loop_more_fuel _ _ (length b) _ _ Hr) by lia.
  now destruct r.
Qed.

(** The pass on a buffer and on the same buffer without a prefix that no
    start marker begins in. *)
Lemma lsl_step_skip_prefix (G T : bytes) :
  (T = [] -> G = []) ->
  (forall i, i < length G -> occurs_at (G ++ T) Lsl.start_marker i = false) ->
  match Lsl.parse_step T with
  | Continue b o => Lsl.parse_step (G ++ T) = Continue b o
  | Break b =>
      exists b', Lsl.parse_step (G ++ T) = Break b' /\ pending b' = pending b
  end.
Proof.
  intros HT Hno. pose proof (find_skip_prefix G T Hno) as Hfind.
  destruct (find T Lsl.start_marker) as [j|] eqn:E; cbn [option_map] in Hfind.
  - destruct (Nat.le_gt_cases (j + 37) (length T)) as [Hle|Hgt].
    + rewrite (lsl_step_found _ j E Hle).
      rewrite (lsl_step_found _ _ Hfind) by (rewrite length_app; lia).
      assert (Hw : slice (G ++ T) (length G + j) (length G + j + 37)
                   = slice T j (j + 37)).
      { unfold slice. rewrite skipn_app, skipn_all2 by lia.
        cbn [app]. f_equal; [lia | f_equal; lia]. }
      assert (Hk : forall k, skipn (length G + j + k) (G ++ T) = skipn (j + k) T).
      { intros k. rewrite skipn_app, skipn_all2 by lia.
        cbn [app]. f_equal. lia. }
      rewrite Hw, !Hk. now destruct (window_valid _).
    + rewrite (lsl_step_short _ j E Hgt).
      exists (G ++ T). split.
      * apply (lsl_step_short _ _ Hfind). rewrite length_app. lia.
      * now apply pending_skip_prefix.
  - rewrite (lsl_step_no_marker _ E).
    exists (slice_last (G ++ T)). split.
    + now apply lsl_step_no_marker.
    + destruct T as [|t T]; [now rewrite (HT eq_refl)|].
      now rewrite slice_last_app by discriminate.
Qed.

Lemma lsl_parse_skip_prefix (G T : bytes) (ps1 ps2 : list bytes)
  (f1 f2 : bytes) :
  (T = [] -> G = []) ->
  (forall i, i < length G -> occurs_at (G ++ T) Lsl.start_marker i = false) ->
  parse_buffer Lsl.parse_step (G ++ T) = Some (ps1, f1) ->
  parse_buffer Lsl.parse_step T = Some (ps2, f2) ->
  ps1 = ps2 /\ pending f1 = pending f2.
Proof.
  intros HT Hno H1 H2. rewrite lsl_parse_unfold in H1, H2.
  pose proof (lsl_step_skip_prefix G T HT Hno) as Hstep.
  destruct (Lsl.parse_step T) as [b|b o].
  - destruct Hstep as (b' & Hb' & Hp). rewrite Hb' in H1.
    injection H1 as <- <-. injection H2 as <- <-. now split.
  - rewrite Hstep in H1. rewrite H1 in H2. injection H2 as <- <-. now split.
Qed.

(** Buffers with the same pending part go the same way when the same bytes
    are appended. *)
Lemma lsl_parse_same_pending (B1 B2 C : bytes) (ps1 ps2 : list bytes)
  (f1 f2 : bytes) :
  pending B1 = pending B2 ->
  parse_buffer Lsl.parse_step (B1 ++ C) = Some (ps1, f1) ->
  parse_buffer Lsl.parse_step (B2 ++ C) = Some (ps2, f2) ->
  ps1 = ps2 /\ pending f1 = pending f2.
Proof.
  intros Hp H1 H2.
  destruct (pending_decomp B1) as (G1 & E1 & N1 & O1).
  destruct (pending_decomp B2) as (G2 & E2 & N2 & O2).
  destruct (lsl_parse_total (pending B1 ++ C)) as [[ps f] Hr].
  rewrite E1, <- app_assoc in H1. rewrite E2, <- app_assoc, <- Hp in H2.
  rewrite <- Hp in N2, O2.
  assert (HT1 : pending B1 ++ C = [] -> G1 = [])
    by (intros H; apply app_eq_nil in H as [H _]; auto).
  assert (HT2 : pending B1 ++ C = [] -> G2 = [])
    by (intros H; apply app_eq_nil in H as [H _]; auto).
  destruct (lsl_parse_skip_prefix G1 _ _ _ _ _ HT1 (O1 C) H1 Hr) as [-> ->].
  destruct (lsl_parse_skip_prefix G2 _ _ _ _ _ HT2 (O2 C) H2 Hr) as [-> ->].
  now split.
Qed.

Lemma lsl_step_app_continue (X Y X1 : bytes) (o : option bytes) :
  Lsl.parse_step X = Continue X1 o ->
  Lsl.parse_step (X ++ Y) = Continue (X1 ++ Y) o.
Proof.
  intros H. destruct (find X Lsl.start_marker) as [i|] eqn:Hf.
  - destruct (Nat.le_gt_cases (i + 37) (length X)) as [Hle|Hgt].
    + rewrite (lsl_step_found _ i Hf Hle) in H.
      destruct (find_Some _ _ _ Hf) as [Hi Hmin].
      assert (Hf' : find (X ++ Y) Lsl.start_marker = Some i).
      { apply find_first.
        - rewrite occurs_at_within by lia. exact Hi.
        - intros j Hj. rewrite occurs_at_within by lia. now apply Hmin. }
      rewrite (lsl_step_found _ i Hf') by (rewrite length_app; lia).
      rewrite slice_app_l by exact Hle.
      assert (Hk : forall k, k <= length X ->
                skipn k (X ++ Y) = skipn k X ++ Y).
      { intros k Hk. rewrite skipn_app. now replace (k - length X) with 0 by lia. }
      rewrite !Hk by lia.
      destruct (window_valid _); injection H as <- <-; reflexivity.
    + rewrite (lsl_step_short _ i Hf Hgt) in H. discriminate.
  - rewrite (lsl_step_no_marker _ Hf) in H. discriminate.
Qed.

Lemma lsl_step_break_cases (X L : bytes) :
  Lsl.parse_step X = Break L -> L = X \/ L = pending X.
Proof.
  intros H. destruct (find X Lsl.start_marker) as [i|] eqn:Hf.
  - destruct (Nat.le_gt_cases (i + 37) (length X)) as [Hle|Hgt].
    + rewrite (lsl_step_found _ i Hf Hle) in H.
      destruct (window_valid _); discriminate.
    + rewrite (lsl_step_short _ i Hf Hgt) in H. injection H as <-. now left.
  - rewrite (lsl_step_no_marker _ Hf) in H. injection H as <-.
    right. unfold pending. now rewrite Hf.
Qed.

(** Parsing [X], then what is left of it with [Y] appended, forwards what
    parsing [X ++ Y] forwards. *)
Lemma lsl_parse_merge (n : nat) :
  forall (X Y L F F2 : bytes) (ps1 ps ps2 : list bytes),
    length X <= n ->
    parse_buffer Lsl.parse_step X = Some (ps1, L) ->
    parse_buffer Lsl.parse_step (X ++ Y) = Some (ps, F) ->
    parse_buffer Lsl.parse_step (L ++ Y) = Some (ps2, F2) ->
    ps = ps1 ++ ps2 /\ pending F = pending F2.
Proof.
  induction n as [|n IH]; intros X Y L F F2 ps1 ps ps2 Hn HX HXY HLY.
  - destruct X; [|cbn in Hn; lia].
    cbn in HX. injection HX as <- <-. cbn [app] in *.
    rewrite HXY in HLY. injection HLY as <- <-. now split.
  - rewrite lsl_parse_unfold in HX.
    destruct (Lsl.parse_step X) as [L'|X1 o] eqn:E.
    + injection HX as <- <-.
      destruct (lsl_step_break_cases _ _ E) as [->| ->].
      * rewrite HXY in HLY. injection HLY as <- <-. now split.
      * cbn [app].
        apply (lsl_parse_same_pending X (pending X) Y); [|exact HXY|exact HLY].
        symmetry. apply pending_idem.
    + destruct (parse_buffer Lsl.parse_step X1) as [[ps1' L1]|] eqn:E1; [|discriminate].
      injection HX as <- <-.
      rewrite lsl_parse_unfold, (lsl_step_app_continue _ Y _ _ E) in HXY.
      destruct (parse_buffer Lsl.parse_step (X1 ++ Y)) as [[ps' F']|] eqn:E2; [|discriminate].
      injection HXY as <- <-.
      apply lsl_step_shrinks in E.
      destruct (IH X1 Y L1 F' F2 ps1' ps' ps2 ltac:(lia) E1 E2 HLY) as [-> Hp].
      split; [now rewrite app_assoc | exact Hp].
Qed.

Lemma lsl_feed_total (buffer read : bytes) :
  exists r, Lsl.feed buffer read = Some r.
Proof.
  destruct read; [now eexists | apply lsl_parse_total].
Qed.

Lemma lsl_feed_all_total (reads : list bytes) :
  forall buffer, exists r, Lsl.feed_all buffer reads = Some r.
Proof.
  induction reads as [|read rest IH]; intros buffer; [now eexists|].
  cbn [Lsl.feed_all].
  destruct (lsl_feed_total buffer read) as [[ps b'] ->].
  destruct (IH b') as [[ps' f] ->]. now eexists.
Qed.

Lemma lsl_feed_all_vs_one_read (reads : list bytes) :
  forall (B1 B2 f1 f2 : bytes) (ps1 ps2 : list bytes),
    pending B1 = pending B2 ->
    Lsl.feed_all B1 reads = Some (ps1, f1) ->
    Lsl.feed B2 (concat reads) = Some (ps2, f2) ->
    ps1 = ps2 /\ pending f1 = pending f2.
Proof.
  induction reads as [|r rest IH]; intros B1 B2 f1 f2 ps1 ps2 Hp H1 H2.
  - cbn in H1, H2. injection H1 as <- <-. injection H2 as <- <-. now split.
  - cbn [Lsl.feed_all] in H1. cbn [concat] in H2.
    destruct r as [|x r].
    + cbn [Lsl.feed app] in H1, H2.
      destruct (Lsl.feed_all B1 rest) as [[psb fb]|] eqn:Eb; [|discriminate].
      injection H1 as <- <-. exact (IH B1 B2 _ _ _ _ Hp Eb H2).
    + rewrite lsl_feed_nonempty in H1 by discriminate.
      destruct (parse_buffer Lsl.parse_step (B1 ++ x :: r))
        as [[psa Ba]|] eqn:Ea; [|discriminate].
      destruct (Lsl.feed_all Ba rest) as [[psb fb]|] eqn:Eb; [|discriminate].
      injection H1 as <- <-.
      destruct (lsl_parse_total (B2 ++ x :: r)) as [[psx Lx] Ex].
      destruct (lsl_parse_same_pending B1 B2 (x :: r) _ _ _ _ Hp Ea Ex)
        as [-> HpL].
      destruct (lsl_feed_total Lx (concat rest)) as [[psy Fy] Ey].
      destruct (IH Ba Lx _ _ _ _ HpL Eb Ey) as [-> HpF].
      rewrite lsl_feed_nonempty in H2 by discriminate.
      rewrite app_assoc in H2.
      destruct (concat rest) as [|c cs] eqn:Ec.
      * rewrite app_nil_r, Ex in H2. injection H2 as <- <-.
        cbn in Ey. injection Ey as <- <-. rewrite app_nil_r. now split.
      * rewrite lsl_feed_nonempty in Ey by discriminate.
        destruct (lsl_parse_merge (length (B2 ++ x :: r)) (B2 ++ x :: r)
                    (c :: cs) Lx f2 Fy psx ps2 psy (Nat.le_refl _) Ex H2 Ey)
          as [-> HpM].
        split; [reflexivity | congruence].
Qed.

(** X17.  What [cerelog_lsl.py] forwards does not depend on how the serial
    port cuts the byte stream into reads: two runs from an empty buffer over
    reads that add up to the same bytes, whatever the bytes, forward the
    same packets in the same order, and the buffers they end with differ at
    most in bytes that lie before the first start marker and can no longer
    take part in a packet. *)
Theorem lsl_reads_do_not_matter (reads1 reads2 : list bytes) :
  concat reads1 = concat reads2 ->
  exists packets f1 f2,
    Lsl.feed_all [] reads1 = Some (packets, f1)
    /\ Lsl.feed_all [] reads2 = Some (packets, f2)
    /\ pending f1 = pending f2.
Proof.
  intros Hcat.
  destruct (lsl_feed_all_total reads1 []) as [[ps1 f1] H1].
  destruct (lsl_feed_all_total reads2 []) as [[ps2 f2] H2].
  destruct (lsl_feed_total [] (concat reads1)) as [[ps f] H].
  destruct (lsl_feed_all_vs_one_read reads1 [] [] _ _ _ _ eq_refl H1 H)
    as [-> Hp1].
  rewrite Hcat in H.
  destruct (lsl_feed_all_vs_one_read reads2 [] [] _ _ _ _ eq_refl H2 H)
    as [-> Hp2].
  exists ps, f1, f2. repeat split; [exact H1 | exact H2 | congruence].
Qed.

Lemma lsl_reads_do_not_matter_witness :
  exists packets f1 f2,
    Lsl.feed_all []
      [[x07; x08; xab]; xcd :: firstn 20 unlucky_payload;
       skipn 22 (raw_frame unlucky_payload) ++ [x09; xab; xcd; x01]]
    = Some (packets, f1)
    /\ Lsl.feed_all []
         [[x07; x08] ++ raw_frame unlucky_payload ++ [x09; xab; xcd; x01]]
       = Some (packets, f2)
    /\ pending f1 = pending f2.
Proof.
  apply (lsl_reads_do_not_matter
           [[x07; x08; xab]; xcd :: firstn 20 unlucky_payload;
            skipn 22 (raw_frame unlucky_payload) ++ [x09; xab; xcd; x01]]
           [[x07; x08] ++ raw_frame unlucky_payload ++ [x09; xab; xcd; x01]]).
  reflexivity.
Defined.
